(** * A shallow embedding of the download file server

    The program is one Go file, [selenium/base/fileserver/main.go]: an HTTP
    handler that lists a directory as JSON (optionally with content hashes),
    deletes a file by name, and otherwise serves static files.

    The embedding keeps the shape of the source.  Go strings are byte
    strings ([string]); [int64] values are [Z]; a Go [error] is represented
    by the text of its [Error()] method, the only thing the program ever
    looks at; Go maps with string keys ([url.Values], [http.Header]) are
    [gmap string (list string)]; a Go slice distinguishes [nil] from an
    empty slice.  The operating system and the static file server are an
    interface ([OS]), the digest functions and the quoting of JSON strings
    another ([Library]); the program is written once against them, in a
    state monad that also records every file system call it makes. *)

From stdpp Require Import gmap strings list pretty sorting.
From Stdlib Require Import ZArith Ascii String Permutation Sorted.

Local Open Scope Z_scope.

(** * The program *)

(** ** Package [strings] *)

(** [unicode.ToLower] restricted to one byte.  Only the bytes [A]-[Z]
    change.  Go's [strings.ToLower] maps runes, and two runes outside ASCII
    lower to ASCII letters ([U+212A] to [k], [U+0130] to [i]); neither
    letter occurs in a name [NewHash] compares with, so the byte-wise map
    decides the switch of [NewHash] as Go's does. *)
Definition ascii_ToLower (c : ascii) : ascii :=
  let n := N_of_ascii c in
  if ((65 <=? n) && (n <=? 90))%N then ascii_of_N (n + 32) else c.

Fixpoint strings_ToLower (s : string) : string :=
  match s with
  | EmptyString => EmptyString
  | String c s' => String (ascii_ToLower c) (strings_ToLower s')
  end.

(** [strings.TrimPrefix(s, prefix)]: [s] without the leading [prefix], or
    [s] itself when it does not start with [prefix]. *)
Fixpoint strings_CutPrefix (s prefix : string) : option string :=
  match prefix, s with
  | EmptyString, _ => Some s
  | String p prefix', String c s' =>
      if decide (p = c) then strings_CutPrefix s' prefix' else None
  | String _ _, EmptyString => None
  end.

Definition strings_TrimPrefix (s prefix : string) : string :=
  match strings_CutPrefix s prefix with
  | Some rest => rest
  | None => s
  end.

(** [strings.Join(elems, sep)]. *)
Fixpoint strings_Join (elems : list string) (sep : string) : string :=
  match elems with
  | [] => EmptyString
  | [e] => e
  | e :: rest => e +:+ sep +:+ strings_Join rest sep
  end.

(** ** Packages [hash], [crypto/md5], [crypto/sha1], [crypto/sha256] *)

Inductive HashAlg := MD5 | SHA1 | SHA256.

Global Instance HashAlg_eq_dec : EqDecision HashAlg.
Proof. solve_decision. Defined.

(** A [hash.Hash]: the algorithm and the bytes written so far. *)
Record Hash := mkHash { hash_alg : HashAlg; hash_written : string }.

Definition md5_New : Hash := mkHash MD5 EmptyString.
Definition sha1_New : Hash := mkHash SHA1 EmptyString.
Definition sha256_New : Hash := mkHash SHA256 EmptyString.

(** [h.Write(p)] never fails. *)
Definition Hash_Write (h : Hash) (p : string) : Hash :=
  mkHash (hash_alg h) (hash_written h +:+ p).

(** ** [NewHash] (main.go, lines 92-106)

    A [nil] interface value is [None]. *)
Definition NewHash (algo : string) : option Hash :=
  let s := strings_ToLower algo in
  if decide (s = "md5") then Some md5_New
  else if decide (s = "sha1") then Some sha1_New
  else if decide (s = "sha256") then Some sha256_New
  else None.

(** [fmt.Sprintf("%x", b)] on a byte slice: two lower-case hexadecimal
    digits per byte. *)
Definition hex_digit (n : N) : ascii :=
  if (n <? 10)%N then ascii_of_N (48 + n) else ascii_of_N (87 + n).

Fixpoint fmt_hex (b : string) : string :=
  match b with
  | EmptyString => EmptyString
  | String c b' =>
      let n := N_of_ascii c in
      String (hex_digit (n / 16)) (String (hex_digit (n mod 16)) (fmt_hex b'))
  end.

(** ** Package [path/filepath] (Unix)

    [filepath.Clean] works on the segments between slashes: empty segments
    and [.] disappear, [..] removes the segment before it when there is
    one to remove, and is kept at the front of a path that is not rooted.
    The segments kept are held in reverse order while scanning.
    [strings_Split_slash] is [strings.Split(s, "/")]; its result is never
    empty. *)
Fixpoint strings_Split_slash (s : string) : list string :=
  match s with
  | EmptyString => [EmptyString]
  | String c s' =>
      match strings_Split_slash s' with
      | [] => [String c EmptyString]
      | seg :: segs =>
          if decide (c = "/"%char) then EmptyString :: seg :: segs
          else String c seg :: segs
      end
  end.

Definition clean_segment (rooted : bool) (kept : list string) (seg : string)
  : list string :=
  if decide (seg = "") then kept
  else if decide (seg = ".") then kept
  else if decide (seg = "..") then
    match kept with
    | top :: below => if decide (top = "..") then ".." :: kept else below
    | [] => if rooted then [] else [".."]
    end
  else seg :: kept.

Definition is_rooted (path : string) : bool :=
  match path with
  | String c _ => bool_decide (c = "/"%char)
  | EmptyString => false
  end.

Definition filepath_Clean (path : string) : string :=
  if decide (path = "") then "."
  else
    let rooted := is_rooted path in
    let kept := fold_left (clean_segment rooted) (strings_Split_slash path) [] in
    let out := (if rooted then "/" else "") +:+ strings_Join (reverse kept) "/" in
    if decide (out = "") then "." else out.

(** [filepath.Join]: leading empty elements are skipped, the rest is joined
    with slashes and cleaned; no element at all gives the empty string. *)
Fixpoint filepath_Join (elem : list string) : string :=
  match elem with
  | [] => ""
  | e :: rest =>
      if decide (e = "") then filepath_Join rest
      else filepath_Clean (strings_Join elem "/")
  end.

(** ** Go values: errors, results, slices *)

(** An [error] is its message. *)
Definition error := string.

(** A Go function returning [(T, error)]. *)
Inductive result (A : Type) :=
| Ok (a : A)
| Err (e : error).
Arguments Ok {A} a.
Arguments Err {A} e.

Definition result_error {A} (r : result A) : option error :=
  match r with Ok _ => None | Err e => Some e end.

(** A slice is [nil] or holds elements; capacity plays no role here. *)
Inductive slice (A : Type) :=
| NilSlice
| Slice (elems : list A).
Arguments NilSlice {A}.
Arguments Slice {A} elems.

(** [make([]T, 0, n)]: empty and not [nil]. *)
Definition make_slice {A} (cap : nat) : slice A := Slice [].

Definition append {A} (s : slice A) (x : A) : slice A :=
  match s with
  | NilSlice => Slice [x]
  | Slice l => Slice (l ++ [x])
  end.

Definition slice_elems {A} (s : slice A) : list A :=
  match s with NilSlice => [] | Slice l => l end.

(** ** Package [sort]

    [sort.Slice] on at most twelve elements is (from Go 1.19 on) the
    insertion sort below:
    element [i] is swapped leftwards while it is [less] than its left
    neighbour.  On longer slices Go switches to pattern-defeating
    quicksort, which sorts by the same [less] and may place elements that
    compare equal in another order; the model uses the insertion sort at
    every length.  The sorted prefix is held in reverse. *)
Section Sort.
Context {A : Type} (less : A → A → bool).

Fixpoint insert_left (x : A) (rev_prefix : list A) : list A :=
  match rev_prefix with
  | [] => [x]
  | y :: below => if less x y then y :: insert_left x below else x :: rev_prefix
  end.

Definition insertion_sort (l : list A) : list A :=
  reverse (fold_left (λ rev_prefix x, insert_left x rev_prefix) l []).

Definition sort_Slice (s : slice A) : slice A :=
  match s with
  | NilSlice => NilSlice
  | Slice l => Slice (insertion_sort l)
  end.
End Sort.

(** ** Package [encoding/json] *)

#[warnings="-register-all"]
Inductive json :=
| JNull
| JNumber (n : Z)
| JString (s : string)
| JArray (items : list json)
| JObject (fields : list (string * json)).

(** The record of one directory entry (main.go, lines 66-71). *)
Record FileInfo := mkFileInfo {
  Name : string;
  Size : Z;
  LastModified : Z;
  HashSum : string;
}.

(** The struct tags: three fields always, [hashSum] with [omitempty]. *)
Definition marshal_FileInfo (f : FileInfo) : json :=
  JObject ([("name", JString (Name f));
            ("size", JNumber (Size f));
            ("lastModified", JNumber (LastModified f))]
           ++ (if decide (HashSum f = "") then []
               else [("hashSum", JString (HashSum f))])).

(** A [nil] slice marshals to [null], any other slice to an array. *)
Definition marshal_files (files : slice FileInfo) : json :=
  match files with
  | NilSlice => JNull
  | Slice l => JArray (marshal_FileInfo <$> l)
  end.

(** Library functions the program takes as given: the three digests, and
    the quoting of a string value by [encoding/json] (escapes, coercion to
    valid UTF-8). *)
Class Library := {
  md5_Sum : string → string;
  sha1_Sum : string → string;
  sha256_Sum : string → string;
  json_quote : string → string;
}.

Section Encode.
Context {Lib : Library}.

(** [h.Sum(nil)]. *)
Definition Hash_Sum (h : Hash) : string :=
  match hash_alg h with
  | MD5 => md5_Sum (hash_written h)
  | SHA1 => sha1_Sum (hash_written h)
  | SHA256 => sha256_Sum (hash_written h)
  end.

Definition quote_char : string := String (ascii_of_N 34) EmptyString.

(** The compact text [json.Marshal] produces. *)
Fixpoint json_render (v : json) : string :=
  match v with
  | JNull => "null"
  | JNumber n => pretty n
  | JString s => json_quote s
  | JArray items => "[" +:+ strings_Join (json_render <$> items) "," +:+ "]"
  | JObject fields =>
      "{" +:+ strings_Join
                ((λ kv, quote_char +:+ kv.1 +:+ quote_char +:+ ":" +:+ json_render kv.2)
                   <$> fields) ","
          +:+ "}"
  end.
End Encode.

(** ** Package [net/http] *)

(** What the handler reads of a request.  [URL_Pairs] are the key and value
    pairs of the query string in order, decoded; [url.ParseQuery] drops the
    pairs it cannot decode and adds each of the others to the map with
    [m[key] = append(m[key], value)]. *)
Record Request := mkRequest {
  Method : string;
  URL_Path : string;
  URL_Pairs : list (string * string);
}.

Definition Values_Add (m : gmap string (list string)) (kv : string * string)
  : gmap string (list string) :=
  <[kv.1 := default [] (m !! kv.1) ++ [kv.2]]> m.

(** [r.URL.Query()]. *)
Definition URL_Query (r : Request) : gmap string (list string) :=
  fold_left Values_Add (URL_Pairs r) ∅.

Definition MethodDelete : string := "DELETE".
Definition StatusOK : Z := 200.
Definition StatusNotFound : Z := 404.
Definition StatusInternalServerError : Z := 500.

(** An [http.ResponseWriter]: the header map, the status once it is
    written, and the body written so far. *)
Record ResponseWriter := mkResponseWriter {
  rw_Header : gmap string (list string);
  rw_Status : option Z;
  rw_Body : string;
}.

(** The writer a handler is given. *)
Definition new_ResponseWriter : ResponseWriter := mkResponseWriter ∅ None "".

Definition Header_Set (k v : string) (w : ResponseWriter) : ResponseWriter :=
  mkResponseWriter (<[k := [v]]> (rw_Header w)) (rw_Status w) (rw_Body w).

Definition Header_Add (k v : string) (w : ResponseWriter) : ResponseWriter :=
  mkResponseWriter (<[k := default [] (rw_Header w !! k) ++ [v]]> (rw_Header w))
                   (rw_Status w) (rw_Body w).

Definition Header_Del (k : string) (w : ResponseWriter) : ResponseWriter :=
  mkResponseWriter (delete k (rw_Header w)) (rw_Status w) (rw_Body w).

(** [w.WriteHeader(code)]: only the first call counts. *)
Definition WriteHeader (code : Z) (w : ResponseWriter) : ResponseWriter :=
  match rw_Status w with
  | Some _ => w
  | None => mkResponseWriter (rw_Header w) (Some code) (rw_Body w)
  end.

(** [w.Write(data)]: writes the status 200 first when none was written. *)
Definition Write (data : string) (w : ResponseWriter) : ResponseWriter :=
  let w := WriteHeader StatusOK w in
  mkResponseWriter (rw_Header w) (rw_Status w) (rw_Body w +:+ data).

Definition newline : string := String (ascii_of_N 10) EmptyString.

(** [http.Error(w, error, code)]. *)
Definition http_Error (w : ResponseWriter) (msg : string) (code : Z)
  : ResponseWriter :=
  let w := Header_Del "Content-Length" w in
  let w := Header_Set "Content-Type" "text/plain; charset=utf-8" w in
  let w := Header_Set "X-Content-Type-Options" "nosniff" w in
  let w := WriteHeader code w in
  Write (msg +:+ newline) w.

(** The status the client receives: 200 when the handler wrote none. *)
Definition response_status (w : ResponseWriter) : Z :=
  default StatusOK (rw_Status w).

(** [json.NewEncoder(w).Encode(files)]: the text and a line feed, in one
    write. *)
Definition json_Encode {Lib : Library} (w : ResponseWriter) (files : slice FileInfo)
  : ResponseWriter :=
  Write (json_render (marshal_files files) +:+ newline) w.

(** ** Package [os] and the state of the world *)

(** What [os.Stat] and [os.Lstat] report ([fs.FileInfo]); the modification
    time is held as [ModTime().Unix()]. *)
Record FileStat := mkFileStat {
  fi_Name : string;
  fi_Size : Z;
  fi_ModTime_Unix : Z;
  fi_IsDir : bool;
}.

(** An open [*os.File], known by the name it was opened with. *)
Definition File := string.

(** The operating system and the static file server of [net/http], over a
    state [W] of their own.  Every call may change the state and may fail,
    so an instance can stand for a file system that other processes change
    between two calls.  [os_ReadDir] gives the names of the entries;
    [file_ReadAll] is the sequence of reads [io.Copy] makes on a file up to
    its end or to the first error. *)
Class OS (W : Type) := {
  os_ReadDir : string → W → result (list string) * W;
  os_Lstat : string → W → result FileStat * W;
  os_Stat : string → W → result FileStat * W;
  os_Open : string → W → result File * W;
  file_ReadAll : File → W → result string * W;
  file_Close : File → W → result unit * W;
  os_Remove : string → W → result unit * W;
  os_MkdirAll : string → W → result unit * W;
  FileServer_ServeHTTP :
    string → ResponseWriter → Request → W → ResponseWriter * W;
}.

Inductive Syscall :=
| SysReadDir | SysLstat | SysStat | SysOpen | SysRead | SysClose | SysRemove
| SysMkdirAll.

Global Instance Syscall_eq_dec : EqDecision Syscall.
Proof. solve_decision. Defined.

(** One call the program made: which, on what path, and the error it
    returned if it failed. *)
Record Event := mkEvent {
  ev_call : Syscall;
  ev_path : string;
  ev_error : option error;
}.

(** The state a request runs in: the system's, and the calls made so far,
    latest first. *)
Record World (W : Type) := mkWorld {
  os_state : W;
  trace : list Event;
}.
Arguments mkWorld {W} os_state trace.
Arguments os_state {W} _.
Arguments trace {W} _.

Definition M (W A : Type) : Type := World W → A * World W.

Global Instance M_ret {W} : MRet (M W) := λ A a σ, (a, σ).
Global Instance M_bind {W} : MBind (M W) :=
  λ A B f m σ, let '(a, σ') := m σ in f a σ'.
Global Instance M_fmap {W} : FMap (M W) :=
  λ A B f m σ, let '(a, σ') := m σ in (f a, σ').

Section Program.
Context {W : Type} {Lib : Library} {Sys : OS W}.

(** A system call, recorded. *)
Definition sys {A} (call : Syscall) (path : string)
    (op : W → result A * W) : M W (result A) :=
  λ σ, let '(r, s) := op (os_state σ) in
       (r, mkWorld s (mkEvent call path (result_error r) :: trace σ)).

(** [defer cleanup] around [body]. *)
Definition deferring {A B} (cleanup : M W B) (body : M W A) : M W A :=
  x ← body; _ ← cleanup; mret x.

(** ** [downloadsDir] (main.go, lines 27-38)

    [HOME] is the value of [os.Getenv("HOME")]; the mode 0755 of the new
    directories is not kept. *)
Definition downloadsDir (HOME : string) : M W (result string) :=
  let homeDir := if decide (HOME = "") then "/home/selenium" else HOME in
  let dir := filepath_Join [homeDir; "Downloads"] in
  r ← sys SysMkdirAll dir (os_MkdirAll dir);
  match r with
  | Err err => mret (Err ("failed to create downloads dir: " +:+ err))
  | Ok _ => mret (Ok dir)
  end.

(** [entry.Info()] of an entry [name] read from [dir]. *)
Definition DirEntry_Info (dir name : string) : M W (result FileStat) :=
  sys SysLstat (dir +:+ "/" +:+ name) (os_Lstat (dir +:+ "/" +:+ name)).

(** [io.Copy(h, f)]: the hash after the copy, and the error of the copy.
    After a failed copy the hash is not looked at again. *)
Definition io_Copy (h : Hash) (f : File) : M W (Hash * option error) :=
  r ← sys SysRead f (file_ReadAll f);
  match r with
  | Ok data => mret (Hash_Write h data, None)
  | Err err => mret (h, Some err)
  end.

(** ** [getHash] (main.go, lines 73-90) *)
Definition getHash (file algo : string) : M W (result string) :=
  r ← sys SysOpen file (os_Open file);
  match r with
  | Err err => mret (Err ("failed to open file: " +:+ err))
  | Ok f =>
      deferring (sys SysClose f (file_Close f))
        match NewHash algo with
        | None => mret (Ok "")
        | Some h =>
            '(h, cerr) ← io_Copy h f;
            match cerr with
            | Some err => mret (Err ("failed to copy: " +:+ err))
            | None => mret (Ok (fmt_hex (Hash_Sum h)))
            end
        end
  end.

(** ** [listFilesAsJson] (main.go, lines 108-142)

    [range_entries] is the [for] loop of lines 116-134.  Each of its two
    early exits calls [http.Error(w, err.Error(), 500)] and returns, as the
    exit after [os.ReadDir] does: the loop hands the message out and
    [listFilesAsJson] makes the call. *)
Fixpoint range_entries (dir algo : string) (entries : list string)
    (files : slice FileInfo) : M W (result (slice FileInfo)) :=
  match entries with
  | [] => mret (Ok files)
  | entry :: rest =>
      i ← DirEntry_Info dir entry;
      match i with
      | Err err => mret (Err err)
      | Ok info =>
          h ← getHash (dir +:+ "/" +:+ entry) algo;
          match h with
          | Err err => mret (Err err)
          | Ok hashFile =>
              range_entries dir algo rest
                (append files
                   (mkFileInfo (fi_Name info) (fi_Size info)
                      (fi_ModTime_Unix info) hashFile))
          end
      end
  end.

(** The comparison of lines 136-138. *)
Definition later_first (a b : FileInfo) : bool :=
  bool_decide (LastModified a > LastModified b).

Definition listFilesAsJson (w : ResponseWriter) (dir algo : string)
  : M W ResponseWriter :=
  r ← sys SysReadDir dir (os_ReadDir dir);
  match r with
  | Err err => mret (http_Error w err StatusInternalServerError)
  | Ok entries =>
      let files := make_slice (List.length entries) in
      r ← range_entries dir algo entries files;
      match r with
      | Err err => mret (http_Error w err StatusInternalServerError)
      | Ok files =>
          let files := sort_Slice later_first files in
          let w := Header_Add "Content-Type" "application/json" w in
          mret (json_Encode w files)
      end
  end.

(** ** [deleteFileIfExists] (main.go, lines 144-157) *)
Definition deleteFileIfExists (w : ResponseWriter) (r : Request) (dir : string)
  : M W ResponseWriter :=
  let fileName := strings_TrimPrefix (URL_Path r) "/" in
  let filePath := filepath_Join [dir; fileName] in
  st ← sys SysStat filePath (os_Stat filePath);
  match st with
  | Err _ =>
      mret (http_Error w ("Unknown file " +:+ fileName) StatusNotFound)
  | Ok _ =>
      rm ← sys SysRemove filePath (os_Remove filePath);
      match rm with
      | Err err =>
          mret (http_Error w
                  ("Failed to delete file " +:+ fileName +:+ ": " +:+ err)
                  StatusInternalServerError)
      | Ok _ => mret w
      end
  end.

(** [http.FileServer(http.Dir(dir)).ServeHTTP(w, r)]. *)
Definition FileServer (dir : string) (w : ResponseWriter) (r : Request)
  : M W ResponseWriter :=
  λ σ, let '(w', s) := FileServer_ServeHTTP dir w r (os_state σ) in
       (w', mkWorld s (trace σ)).

(** ** [mux] (main.go, lines 45-64)

    [mux dir] is the function registered on the pattern [/], which matches
    every path; what [http.ServeMux] does before it calls the function (it
    redirects a request whose path is not in canonical form) is not part of
    the model.  A handler ends by returning or by a run-time panic, here
    the one of an index out of range. *)
Inductive Handled :=
| Returned (w : ResponseWriter)
| Panicked (msg : string).

Definition jsonParam : string := "json".
Definition hashSum : string := "hash".

Definition mux (dir : string) (w : ResponseWriter) (r : Request)
  : M W Handled :=
  if decide (Method r = MethodDelete) then
    Returned <$> deleteFileIfExists w r dir
  else
    match URL_Query r !! jsonParam with
    | Some _ =>
        match URL_Query r !! hashSum with
        | Some hashSumQuery =>
            match hashSumQuery !! 0%nat with
            | Some algo => Returned <$> listFilesAsJson w dir algo
            | None => mret (Panicked "index out of range [0] with length 0")
            end
        | None => Returned <$> listFilesAsJson w dir ""
        end
    | None =>
        Returned <$> FileServer dir w r
    end.

End Program.

(** ** [main] (main.go, lines 19-25)

    What [main] does up to the call of [http.ListenAndServe]: it dies with
    the error of [downloadsDir], or it serves [mux dir] on the address
    [:8080].  The serving itself, with a goroutine for each connection, is
    not modelled. *)
Inductive Started :=
| Fatal (err : error)
| Serving (addr dir : string).

Definition main {W : Type} {Sys : OS W} (HOME : string) : M W Started :=
  r ← downloadsDir HOME;
  match r with
  | Err err => mret (Fatal err)
  | Ok dir => mret (Serving ":8080" dir)
  end.

(** * A file system

    An instance of [OS]: a tree of directories and regular files, changed
    by nothing but the calls themselves, with the behaviour of Linux (a
    directory can be opened for reading but not read; only an empty
    directory can be removed).  Paths are resolved from the root segment by
    segment; callers pass cleaned paths, and a segment [.] or [..] is
    looked up like any other name.  Times do not advance. *)

#[warnings="-register-all"]
Inductive Node :=
| RegFile (content : string) (mtime : Z) (readable : bool)
| Directory (entries : list (string * Node)) (mtime : Z) (size : Z).

Inductive Errno := ENOENT | ENOTDIR | EACCES | EISDIR | ENOTEMPTY | EBUSY.

Definition Errno_Error (e : Errno) : string :=
  match e with
  | ENOENT => "no such file or directory"
  | ENOTDIR => "not a directory"
  | EACCES => "permission denied"
  | EISDIR => "is a directory"
  | ENOTEMPTY => "directory not empty"
  | EBUSY => "device or resource busy"
  end.

(** The text of an [*fs.PathError]. *)
Definition PathError (op path : string) (e : Errno) : error :=
  op +:+ " " +:+ path +:+ ": " +:+ Errno_Error e.

Definition path_segments (path : string) : list string :=
  filter (λ seg, seg ≠ "") (strings_Split_slash path).

Fixpoint find_entry (name : string) (entries : list (string * Node))
  : option Node :=
  match entries with
  | [] => None
  | (n, c) :: rest => if decide (n = name) then Some c else find_entry name rest
  end.

Definition remove_entry (name : string) (entries : list (string * Node))
  : list (string * Node) :=
  filter (λ nc, nc.1 ≠ name) entries.

Fixpoint replace_entry (name : string) (c' : Node)
    (entries : list (string * Node)) : list (string * Node) :=
  match entries with
  | [] => []
  | (n, c) :: rest =>
      if decide (n = name) then (n, c') :: rest
      else (n, c) :: replace_entry name c' rest
  end.

Fixpoint resolve (n : Node) (segs : list string) : Errno + Node :=
  match segs with
  | [] => inr n
  | seg :: rest =>
      match n with
      | RegFile _ _ _ => inl ENOTDIR
      | Directory entries _ _ =>
          match find_entry seg entries with
          | None => inl ENOENT
          | Some c => resolve c rest
          end
      end
  end.

(** [unlink] or [rmdir] of the node at [segs]: the tree without it. *)
Fixpoint remove_at (n : Node) (segs : list string) : Errno + Node :=
  match segs with
  | [] => inl EBUSY
  | seg :: rest =>
      match n with
      | RegFile _ _ _ => inl ENOTDIR
      | Directory entries mtime size =>
          match find_entry seg entries with
          | None => inl ENOENT
          | Some c =>
              match rest with
              | [] =>
                  match c with
                  | Directory (_ :: _) _ _ => inl ENOTEMPTY
                  | _ => inr (Directory (remove_entry seg entries) mtime size)
                  end
              | _ :: _ =>
                  match remove_at c rest with
                  | inl e => inl e
                  | inr c' =>
                      inr (Directory (replace_entry seg c' entries) mtime size)
                  end
              end
          end
      end
  end.

(** [mkdir -p]: the directories missing on the way are created empty. *)
Fixpoint mkdir_all (n : Node) (segs : list string) : Errno + Node :=
  match n with
  | RegFile _ _ _ => inl ENOTDIR
  | Directory entries mtime size =>
      match segs with
      | [] => inr n
      | seg :: rest =>
          match find_entry seg entries with
          | Some c =>
              match mkdir_all c rest with
              | inl e => inl e
              | inr c' =>
                  inr (Directory (replace_entry seg c' entries) mtime size)
              end
          | None =>
              match mkdir_all (Directory [] mtime size) rest with
              | inl e => inl e
              | inr c' => inr (Directory (entries ++ [(seg, c')]) mtime size)
              end
          end
      end
  end.

Definition base_name (path : string) : string :=
  default "/" (last (path_segments path)).

Definition stat_of (path : string) (n : Node) : FileStat :=
  match n with
  | RegFile content mtime _ =>
      mkFileStat (base_name path) (Z.of_nat (String.length content)) mtime false
  | Directory _ mtime size => mkFileStat (base_name path) size mtime true
  end.

Definition fs_Stat (op path : string) (root : Node) : result FileStat * Node :=
  match resolve root (path_segments path) with
  | inl e => (Err (PathError op path e), root)
  | inr n => (Ok (stat_of path n), root)
  end.

(** [os.ReadDir] sorts the entries by name. *)
Definition fs_ReadDir (path : string) (root : Node)
  : result (list string) * Node :=
  match resolve root (path_segments path) with
  | inl e => (Err (PathError "open" path e), root)
  | inr (RegFile _ _ _) => (Err (PathError "readdirent" path ENOTDIR), root)
  | inr (Directory entries _ _) => (Ok (merge_sort String.le entries.*1), root)
  end.

(** A directory opens for reading like a file does. *)
Definition fs_Open (path : string) (root : Node) : result File * Node :=
  match resolve root (path_segments path) with
  | inl e => (Err (PathError "open" path e), root)
  | inr (RegFile _ _ false) => (Err (PathError "open" path EACCES), root)
  | inr _ => (Ok path, root)
  end.

(** Reading from an open directory fails. *)
Definition fs_ReadAll (f : File) (root : Node) : result string * Node :=
  match resolve root (path_segments f) with
  | inl e => (Err (PathError "read" f e), root)
  | inr (RegFile content _ _) => (Ok content, root)
  | inr (Directory _ _ _) => (Err (PathError "read" f EISDIR), root)
  end.

Definition fs_Close (f : File) (root : Node) : result unit * Node :=
  (Ok (), root).

Definition fs_Remove (path : string) (root : Node) : result unit * Node :=
  match remove_at root (path_segments path) with
  | inl e => (Err (PathError "remove" path e), root)
  | inr root' => (Ok (), root')
  end.

Definition fs_MkdirAll (path : string) (root : Node) : result unit * Node :=
  match mkdir_all root (path_segments path) with
  | inl e => (Err (PathError "mkdir" path e), root)
  | inr root' => (Ok (), root')
  end.

(** A stand-in for the static file server: the bytes of a regular file, or
    the reply of [http.NotFound]. *)
Definition fs_ServeHTTP (dir : string) (w : ResponseWriter) (r : Request)
    (root : Node) : ResponseWriter * Node :=
  match resolve root (path_segments (filepath_Join [dir; URL_Path r])) with
  | inr (RegFile content _ true) => (Write content w, root)
  | _ => (http_Error w "404 page not found" StatusNotFound, root)
  end.

Global Instance TreeFS : OS Node := {|
  os_ReadDir := fs_ReadDir;
  os_Lstat := fs_Stat "lstat";
  os_Stat := fs_Stat "stat";
  os_Open := fs_Open;
  file_ReadAll := fs_ReadAll;
  file_Close := fs_Close;
  os_Remove := fs_Remove;
  os_MkdirAll := fs_MkdirAll;
  FileServer_ServeHTTP := fs_ServeHTTP;
|}.

(** Digests and quoting that only frame the text, for running the program
    on examples. *)
Definition ExampleLibrary : Library := {|
  md5_Sum := λ data, "md5:" +:+ data;
  sha1_Sum := λ data, "sha1:" +:+ data;
  sha256_Sum := λ data, "sha256:" +:+ data;
  json_quote := λ s, quote_char +:+ s +:+ quote_char;
|}.

(** * The vocabulary of the properties *)

(** The values a query string gives to [key], in order. *)
Definition query_values (key : string) (pairs : list (string * string))
  : list string :=
  (filter (λ kv, kv.1 = key) pairs).*2.

(** The reply is plain text. *)
Definition plain_text (w : ResponseWriter) : Prop :=
  rw_Header w !! "Content-Type" = Some ["text/plain; charset=utf-8"].

(** The reply is JSON. *)
Definition json_reply (w : ResponseWriter) : Prop :=
  rw_Header w !! "Content-Type" = Some ["application/json"].

(** The keys of a JSON object, in order. *)
Definition json_keys (v : json) : list string :=
  match v with
  | JObject fields => fields.*1
  | _ => []
  end.

(** The message a listing stops with when the call [c] fails with [err]. *)
Definition failure_text (c : Syscall) (err : error) : string :=
  match c with
  | SysOpen => "failed to open file: " +:+ err
  | SysRead => "failed to copy: " +:+ err
  | _ => err
  end.

(** ** The calls of a listing

    What one listing does to the system is described entry by entry: the
    calls made for an entry (latest first), and whether the entry gave a
    record or stopped the listing with a message. *)
Inductive entry_calls {Lib : Library} (path algo : string)
  : result FileInfo → list Event → Prop :=
| lstat_failed e :
    entry_calls path algo (Err e) [mkEvent SysLstat path (Some e)]
| open_failed e :
    entry_calls path algo (Err ("failed to open file: " +:+ e))
      [mkEvent SysOpen path (Some e); mkEvent SysLstat path None]
| not_hashed info f c :
    NewHash algo = None →
    entry_calls path algo
      (Ok (mkFileInfo (fi_Name info) (fi_Size info) (fi_ModTime_Unix info) ""))
      [mkEvent SysClose f c; mkEvent SysOpen path None;
       mkEvent SysLstat path None]
| copy_failed h f e c :
    NewHash algo = Some h →
    entry_calls path algo (Err ("failed to copy: " +:+ e))
      [mkEvent SysClose f c; mkEvent SysRead f (Some e);
       mkEvent SysOpen path None; mkEvent SysLstat path None]
| hashed info h f data c :
    NewHash algo = Some h →
    entry_calls path algo
      (Ok (mkFileInfo (fi_Name info) (fi_Size info) (fi_ModTime_Unix info)
             (fmt_hex (Hash_Sum (Hash_Write h data)))))
      [mkEvent SysClose f c; mkEvent SysRead f None;
       mkEvent SysOpen path None; mkEvent SysLstat path None].

(** The calls of the loop over [entries]: the records gathered, or the
    message of the entry that stopped it. *)
Inductive loop_calls {Lib : Library} (dir algo : string)
  : list string → result (list FileInfo) → list Event → Prop :=
| loop_done : loop_calls dir algo [] (Ok []) []
| loop_stop entry rest msg calls :
    entry_calls (dir +:+ "/" +:+ entry) algo (Err msg) calls →
    loop_calls dir algo (entry :: rest) (Err msg) calls
| loop_next_ok entry rest rec calls recs calls' :
    entry_calls (dir +:+ "/" +:+ entry) algo (Ok rec) calls →
    loop_calls dir algo rest (Ok recs) calls' →
    loop_calls dir algo (entry :: rest) (Ok (rec :: recs)) (calls' ++ calls)
| loop_next_err entry rest rec calls msg calls' :
    entry_calls (dir +:+ "/" +:+ entry) algo (Ok rec) calls →
    loop_calls dir algo rest (Err msg) calls' →
    loop_calls dir algo (entry :: rest) (Err msg) (calls' ++ calls).

(** In the reversed prefix of the sort no element is [less] than the one
    after it. *)
Definition settled {A} (less : A → A → bool) (y z : A) : Prop :=
  less y z = false.

(** The files a run opened, and the files it closed. *)
Definition opened (calls : list Event) : list Event :=
  filter (λ e, ev_call e = SysOpen ∧ ev_error e = None) calls.

Definition closed (calls : list Event) : list Event :=
  filter (λ e, ev_call e = SysClose) calls.

(** ** Paths *)

(** A segment holds no slash. *)
Definition slash_free (seg : string) : Prop := strings_Split_slash seg = [seg].

(** A name of a directory entry: not empty, and one segment. *)
Definition is_name (name : string) : Prop := name ≠ "" ∧ slash_free name.

(** A segment [filepath.Clean] keeps as a name. *)
Definition plain_seg (seg : string) : Prop :=
  seg ≠ "" ∧ seg ≠ "." ∧ seg ≠ ".." ∧ slash_free seg.

(** The segments kept while cleaning, latest first: names, above the
    [..] segments a path that is not rooted starts with. *)
Definition clean_kept (rooted : bool) (kept : list string) : Prop :=
  ∃ tops k, kept = tops ++ replicate k ".." ∧ Forall plain_seg tops ∧
            (rooted = true → k = 0%nat).

(** The text [filepath.Clean] writes for the segments it kept. *)
Definition clean_text (rooted : bool) (kept : list string) : string :=
  (if rooted then "/" else "") +:+ strings_Join (reverse kept) "/".

(** The record of the node [n] found at [path]. *)
Definition node_record (path : string) (n : Node) (hash : string) : FileInfo :=
  mkFileInfo (fi_Name (stat_of path n)) (fi_Size (stat_of path n))
    (fi_ModTime_Unix (stat_of path n)) hash.

(** ** Trees to run the program on *)

(** The digests are never empty (they are 16, 20 and 32 bytes long). *)
Definition digests_not_empty (Lib : Library) : Prop :=
  ∀ data, md5_Sum data ≠ "" ∧ sha1_Sum data ≠ "" ∧ sha256_Sum data ≠ "".

(** What the tree reports of a node. *)
Definition node_size (n : Node) : Z :=
  match n with
  | RegFile content _ _ => Z.of_nat (String.length content)
  | Directory _ _ size => size
  end.

Definition node_mtime (n : Node) : Z :=
  match n with
  | RegFile _ mtime _ => mtime
  | Directory _ mtime _ => mtime
  end.

(** The hash field [getHash] gives for a node of the tree, when it gives
    one: none for a file that cannot be opened, and none for a directory
    when an algorithm is selected. *)
Definition tree_hash {Lib : Library} (algo : string) (n : Node) : option string :=
  match n, NewHash algo with
  | RegFile _ _ false, _ => None
  | RegFile content _ true, Some h =>
      Some (fmt_hex (Hash_Sum (Hash_Write h content)))
  | Directory _ _ _, Some _ => None
  | _, None => Some ""
  end.

(** The record the loop gathers for the entry [name] of [dir]. *)
Definition tree_entry_record {Lib : Library} (root : Node) (dir algo name : string)
  : option FileInfo :=
  match resolve root (path_segments (dir +:+ "/" +:+ name)) with
  | inr n => node_record (dir +:+ "/" +:+ name) n <$> tree_hash algo n
  | inl _ => None
  end.

(** A cleaned path with at least one segment: what [filepath.Clean] writes
    when it kept a segment. *)
Definition cleaned_dir (dir : string) : Prop :=
  ∃ rooted kept, clean_kept rooted kept ∧ kept ≠ [] ∧
                 dir = clean_text rooted kept.

(** A directory [/d] with two files and a subdirectory that is not
    empty. *)
Definition example_root : Node :=
  Directory
    [("d", Directory [("b.txt", RegFile "hello" 20 true);
                      ("a.txt", RegFile "xy" 30 true);
                      ("sub", Directory [("inner", RegFile "" 7 true)] 25 4096)]
             5 4096)]
    1 4096.

(** A directory [/d] with two files. *)
Definition files_root : Node :=
  Directory
    [("d", Directory [("b.txt", RegFile "hello" 20 true);
                      ("a.txt", RegFile "xy" 30 true)]
             5 4096)]
    1 4096.

(** A directory [/d] with one file that cannot be opened. *)
Definition locked_root : Node :=
  Directory [("d", Directory [("locked", RegFile "secret" 9 false)] 5 4096)]
    1 4096.

(** A directory [/d] with no entry. *)
Definition empty_root : Node := Directory [("d", Directory [] 5 4096)] 1 4096.

(** A root with nothing below it. *)
Definition bare_root : Node := Directory [] 0 4096.

(** * Tactics *)

(** Unfolds the monad, leaving the calls of the system in place. *)
Ltac run_M :=
  unfold deferring, io_Copy, DirEntry_Info, sys, fmap, M_fmap, mbind, M_bind,
    mret, M_ret;
  cbn [os_state trace result_error].

(** Case analysis on the next call of the system in the goal. *)
Ltac next_call :=
  match goal with
  | |- context [os_Stat ?p ?s] => destruct (os_Stat p s) as [[?|?] ?] eqn:?
  | |- context [os_Remove ?p ?s] => destruct (os_Remove p s) as [[[]|?] ?] eqn:?
  | |- context [os_ReadDir ?p ?s] => destruct (os_ReadDir p s) as [[?|?] ?] eqn:?
  | |- context [os_Lstat ?p ?s] => destruct (os_Lstat p s) as [[?|?] ?] eqn:?
  | |- context [os_Open ?p ?s] => destruct (os_Open p s) as [[?|?] ?] eqn:?
  | |- context [file_ReadAll ?p ?s] =>
      destruct (file_ReadAll p s) as [[?|?] ?] eqn:?
  | |- context [os_MkdirAll ?p ?s] =>
      destruct (os_MkdirAll p s) as [[[]|?] ?] eqn:?
  end; cbn [os_state trace result_error].

(** Membership in a list that is written out. *)
Ltac in_list := repeat first [apply list_elem_of_here | apply list_elem_of_further].

(** No membership in a list that is written out. *)
Ltac not_in_list :=
  let Hin := fresh in
  intros Hin; repeat (apply elem_of_cons in Hin as [?|Hin]; [done|]);
  by apply elem_of_nil in Hin.

(** * The hash selector *)

Lemma ascii_ToLower_idemp c : ascii_ToLower (ascii_ToLower c) = ascii_ToLower c.
Proof. destruct c as [[] [] [] [] [] [] [] []]; reflexivity. Qed.

Lemma strings_ToLower_idemp s :
  strings_ToLower (strings_ToLower s) = strings_ToLower s.
Proof.
  induction s as [|c s IH]; simpl; [done|].
  by rewrite ascii_ToLower_idemp, IH.
Qed.

(** The selector does not see the case of the name. *)
Lemma NewHash_ToLower algo : NewHash (strings_ToLower algo) = NewHash algo.
Proof. unfold NewHash. by rewrite strings_ToLower_idemp. Qed.

(** C5. For every algorithm name: when its lower-case form is md5, sha1 or
    sha256 the selector returns a fresh accumulator of that algorithm, with
    nothing written to it yet; for every other name, the empty one
    included, it returns nil.  The selector is a total function: no name
    makes it fail. *)
Theorem NewHash_selects (algo : string) :
  (strings_ToLower algo = "md5" → NewHash algo = Some (mkHash MD5 "")) ∧
  (strings_ToLower algo = "sha1" → NewHash algo = Some (mkHash SHA1 "")) ∧
  (strings_ToLower algo = "sha256" → NewHash algo = Some (mkHash SHA256 "")) ∧
  (strings_ToLower algo ∉ ["md5"; "sha1"; "sha256"] → NewHash algo = None) ∧
  NewHash "" = None.
Proof.
  unfold NewHash. repeat split; try done.
  - by intros ->.
  - by intros ->.
  - by intros ->.
  - intros Hnot. repeat case_decide; try done; exfalso; apply Hnot;
      match goal with Heq : _ = _ |- _ => rewrite Heq end; in_list.
Qed.

Lemma NewHash_selects_witness :
  NewHash "SHA1" = Some (mkHash SHA1 "") ∧ NewHash "crc32" = None.
Proof.
  split.
  - refine (proj1 (proj2 (NewHash_selects "SHA1")) _). reflexivity.
  - refine (proj1 (proj2 (proj2 (proj2 (NewHash_selects "crc32")))) _).
    vm_compute. not_in_list.
Defined.

Example NewHash_mixed_case :
  NewHash "Sha256" = Some sha256_New ∧ NewHash "MD5" = Some md5_New ∧
  NewHash "sha-1" = None ∧ NewHash "sha512" = None.
Proof. repeat split; reflexivity. Qed.

(** The name is lowered, not folded: spelled with a long s (U+017F, the
    bytes 197 and 191) it selects nothing. *)
Example NewHash_long_s :
  NewHash (String (ascii_of_N 197) (String (ascii_of_N 191) "ha1")) = None.
Proof. reflexivity. Qed.

(** * The router *)

Lemma query_values_cons key kv pairs :
  query_values key (kv :: pairs) =
  if decide (kv.1 = key) then kv.2 :: query_values key pairs
  else query_values key pairs.
Proof. unfold query_values. rewrite filter_cons. by case_decide. Qed.

Lemma fold_Values_Add_lookup pairs (m : gmap string (list string)) key :
  fold_left Values_Add pairs m !! key =
  match query_values key pairs with
  | [] => m !! key
  | vs => Some (default [] (m !! key) ++ vs)
  end.
Proof.
  revert m. induction pairs as [|kv pairs IH]; intros m; [done|].
  simpl. rewrite IH, query_values_cons. unfold Values_Add.
  case_decide as Hk.
  - subst key. rewrite lookup_insert_eq. simpl.
    destruct (query_values kv.1 pairs) as [|v vs]; [done|].
    by rewrite <- app_assoc.
  - by rewrite lookup_insert_ne.
Qed.

(** [r.URL.Query()[key]]: absent when the query string has no such key,
    otherwise all its values, of which there is at least one. *)
Lemma URL_Query_lookup r key :
  URL_Query r !! key =
  match query_values key (URL_Pairs r) with
  | [] => None
  | vs => Some vs
  end.
Proof.
  unfold URL_Query. rewrite fold_Values_Add_lookup, lookup_empty.
  by destruct (query_values key (URL_Pairs r)).
Qed.


Section Router.
Context {W : Type} {Lib : Library} {Sys : OS W}.


End Router.


(** * Responses *)

(** What [http.Error] leaves in a writer nothing was written to. *)
Lemma http_Error_fresh (w : ResponseWriter) msg code :
  rw_Status w = None →
  response_status (http_Error w msg code) = code ∧
  rw_Body (http_Error w msg code) = rw_Body w +:+ msg +:+ newline ∧
  plain_text (http_Error w msg code).
Proof.
  intros Hs. unfold http_Error, Write, WriteHeader, response_status, plain_text.
  simpl. rewrite Hs. simpl. repeat split.
  rewrite lookup_insert_ne by done. by rewrite lookup_insert_eq.
Qed.

(** * The file eraser *)

Section Eraser.
Context {W : Type} {Sys : OS W}.

(** The three ways through [deleteFileIfExists]. *)
Lemma deleteFileIfExists_run (w : ResponseWriter) (r : Request) (dir : string)
    (σ : World W) :
  let N := strings_TrimPrefix (URL_Path r) "/" in
  let target := filepath_Join [dir; N] in
  deleteFileIfExists w r dir σ =
  match os_Stat target (os_state σ) with
  | (Err e, s1) =>
      (http_Error w ("Unknown file " +:+ N) StatusNotFound,
       mkWorld s1 (mkEvent SysStat target (Some e) :: trace σ))
  | (Ok _, s1) =>
      match os_Remove target s1 with
      | (Err cause, s2) =>
          (http_Error w ("Failed to delete file " +:+ N +:+ ": " +:+ cause)
             StatusInternalServerError,
           mkWorld s2 (mkEvent SysRemove target (Some cause)
                       :: mkEvent SysStat target None :: trace σ))
      | (Ok _, s2) =>
          (w, mkWorld s2 (mkEvent SysRemove target None
                          :: mkEvent SysStat target None :: trace σ))
      end
  end.
Proof.
  intros N target. unfold deleteFileIfExists. fold N. fold target.
  run_M. next_call; [|done]. by next_call.
Qed.

(** C2. A delete request names the file [N], its path without the leading
    slash, and the program works on [filepath.Join(dir, N)].  When
    [os.Stat] finds no such file the reply is 404, plain text, and reads
    "Unknown file N"; nothing is removed.  When the file is there and
    [os.Remove] fails the reply is 500, plain text, and ends with the cause
    of the failure.  When the removal succeeds nothing is written: the
    status is the default 200 and the body is empty. *)
Theorem deleteFileIfExists_responses (dir : string) (r : Request) (σ : World W) :
  let N := strings_TrimPrefix (URL_Path r) "/" in
  let target := filepath_Join [dir; N] in
  let stat := os_Stat target (os_state σ) in
  let removal := os_Remove target stat.2 in
  let w' := (deleteFileIfExists new_ResponseWriter r dir σ).1 in
  let σ' := (deleteFileIfExists new_ResponseWriter r dir σ).2 in
  (∀ e, stat.1 = Err e →
     response_status w' = 404 ∧ plain_text w' ∧
     rw_Body w' = ("Unknown file " +:+ N) +:+ newline ∧
     os_state σ' = stat.2 ∧
     trace σ' = mkEvent SysStat target (Some e) :: trace σ) ∧
  (∀ st cause, stat.1 = Ok st → removal.1 = Err cause →
     response_status w' = 500 ∧ plain_text w' ∧
     rw_Body w' =
       ("Failed to delete file " +:+ N +:+ ": " +:+ cause) +:+ newline) ∧
  (∀ st, stat.1 = Ok st → removal.1 = Ok () →
     w' = new_ResponseWriter ∧ response_status w' = 200 ∧ rw_Body w' = "" ∧
     os_state σ' = removal.2).
Proof.
  intros N target stat removal w' σ'. subst w' σ' removal stat.
  rewrite deleteFileIfExists_run. fold N. fold target.
  destruct (os_Stat target (os_state σ)) as [[st|e] s1]; simpl.
  - destruct (os_Remove target s1) as [[[]|cause] s2]; simpl.
    + split; [done|]. split; [done|]. by intros _ _ _.
    + split; [done|]. split; [|done]. intros _ ? _ [= <-].
      by destruct (http_Error_fresh new_ResponseWriter
        ("Failed to delete file " +:+ N +:+ ": " +:+ cause) 500 eq_refl)
        as (?&?&?).
  - split; [|done]. intros ? [= <-].
    by destruct (http_Error_fresh new_ResponseWriter
        ("Unknown file " +:+ N) 404 eq_refl) as (?&?&?).
Qed.

End Eraser.

(** On the tree [os.Stat] fails exactly on the paths that lead to no
    node: the file "does not exist". *)
Lemma fs_Stat_exists op path root :
  (∃ st, (fs_Stat op path root).1 = Ok st) ↔
  (∃ n, resolve root (path_segments path) = inr n).
Proof.
  unfold fs_Stat. destruct (resolve root (path_segments path)); simpl.
  - split; intros [? ?]; done.
  - split; intros _; eauto.
Qed.

(** On the tree, then, a name that leads to no node is answered 404 and
    the tree is left as it was. *)
Lemma tree_delete_missing (dir : string) (r : Request) (root : Node)
    (tr : list Event) (e : Errno) :
  let N := strings_TrimPrefix (URL_Path r) "/" in
  resolve root (path_segments (filepath_Join [dir; N])) = inl e →
  let out := deleteFileIfExists (Sys := TreeFS) new_ResponseWriter r dir
               (mkWorld root tr) in
  response_status out.1 = 404 ∧
  rw_Body out.1 = ("Unknown file " +:+ N) +:+ newline ∧
  os_state out.2 = root.
Proof.
  intros N Hres out. subst out. rewrite deleteFileIfExists_run. fold N.
  unfold os_Stat, TreeFS, fs_Stat. cbn [os_state]. by rewrite Hres.
Qed.

Lemma deleteFileIfExists_responses_witness :
  let gone := deleteFileIfExists (Sys := TreeFS) new_ResponseWriter
                (mkRequest "DELETE" "/ghost.txt" []) "/d"
                (mkWorld example_root []) in
  let kept := deleteFileIfExists (Sys := TreeFS) new_ResponseWriter
                (mkRequest "DELETE" "/sub" []) "/d"
                (mkWorld example_root []) in
  let removed := deleteFileIfExists (Sys := TreeFS) new_ResponseWriter
                   (mkRequest "DELETE" "/a.txt" []) "/d"
                   (mkWorld example_root []) in
  (response_status gone.1 = 404 ∧
   rw_Body gone.1 = ("Unknown file " +:+ "ghost.txt") +:+ newline) ∧
  (response_status kept.1 = 500 ∧
   rw_Body kept.1 =
     ("Failed to delete file " +:+ "sub" +:+ ": "
      +:+ "remove /d/sub: directory not empty") +:+ newline) ∧
  (response_status removed.1 = 200 ∧ rw_Body removed.1 = "" ∧
   resolve (os_state removed.2) (path_segments "/d/a.txt") = inl ENOENT).
Proof.
  split; [|split].
  - destruct (proj1 (deleteFileIfExists_responses (Sys := TreeFS) "/d"
                       (mkRequest "DELETE" "/ghost.txt" [])
                       (mkWorld example_root []))
                _ eq_refl) as (Hs & _ & Hb & _).
    exact (conj Hs Hb).
  - destruct (proj1 (proj2 (deleteFileIfExists_responses (Sys := TreeFS) "/d"
                       (mkRequest "DELETE" "/sub" [])
                       (mkWorld example_root [])))
                _ _ eq_refl eq_refl) as (Hs & _ & Hb).
    exact (conj Hs Hb).
  - destruct (proj2 (proj2 (deleteFileIfExists_responses (Sys := TreeFS) "/d"
                       (mkRequest "DELETE" "/a.txt" [])
                       (mkWorld example_root [])))
                _ eq_refl eq_refl) as (_ & Hs & Hb & Hst).
    refine (conj Hs (conj Hb _)). rewrite Hst. reflexivity.
Defined.

(** * The directory lister *)

Section Lister.
Context {W : Type} {Lib : Library} {Sys : OS W}.

(** The four ways through [getHash]. *)
Lemma getHash_run (file algo : string) (σ : World W) :
  getHash file algo σ =
  match os_Open file (os_state σ) with
  | (Err e, s1) =>
      (Err ("failed to open file: " +:+ e),
       mkWorld s1 (mkEvent SysOpen file (Some e) :: trace σ))
  | (Ok f, s1) =>
      match NewHash algo with
      | None =>
          let '(c, s2) := file_Close f s1 in
          (Ok "",
           mkWorld s2 (mkEvent SysClose f (result_error c)
                       :: mkEvent SysOpen file None :: trace σ))
      | Some h =>
          match file_ReadAll f s1 with
          | (Err e, s2) =>
              let '(c, s3) := file_Close f s2 in
              (Err ("failed to copy: " +:+ e),
               mkWorld s3 (mkEvent SysClose f (result_error c)
                           :: mkEvent SysRead f (Some e)
                           :: mkEvent SysOpen file None :: trace σ))
          | (Ok data, s2) =>
              let '(c, s3) := file_Close f s2 in
              (Ok (fmt_hex (Hash_Sum (Hash_Write h data))),
               mkWorld s3 (mkEvent SysClose f (result_error c)
                           :: mkEvent SysRead f None
                           :: mkEvent SysOpen file None :: trace σ))
          end
      end
  end.
Proof.
  unfold getHash. run_M. next_call; [|done].
  destruct (NewHash algo) as [h|]; cbn [os_state trace result_error].
  - next_call; by destruct (file_Close _ _) as [c s3].
  - by destruct (file_Close _ _) as [c s3].
Qed.

(** The loop does what [loop_calls] says. *)
Lemma range_entries_calls (dir algo : string) (entries : list string)
    (files : list FileInfo) (σ : World W) :
  ∃ calls,
    trace (range_entries dir algo entries (Slice files) σ).2 = calls ++ trace σ ∧
    match (range_entries dir algo entries (Slice files) σ).1 with
    | Ok files' =>
        ∃ recs, files' = Slice (files ++ recs) ∧
                loop_calls dir algo entries (Ok recs) calls
    | Err msg => loop_calls dir algo entries (Err msg) calls
    end.
Proof.
  revert files σ. induction entries as [|entry rest IH]; intros files σ.
  { exists []. split; [done|]. exists []. rewrite app_nil_r. split; [done|constructor]. }
  cbn [range_entries]. run_M.
  next_call; cycle 1.
  { eexists [_]. split; [done|]. simpl. apply loop_stop. constructor. }
  rewrite getHash_run. cbn [os_state trace].
  next_call; cycle 1.
  { eexists [_; _]. split; [done|]. simpl. apply loop_stop. constructor. }
  destruct (NewHash algo) as [h|] eqn:Eh.
  - next_call; destruct (file_Close _ _) as [c s3]; cycle 1.
    { eexists [_; _; _; _]. split; [done|]. simpl. apply loop_stop.
      by eapply copy_failed. }
    cbn [append].
    match goal with
    | |- context [range_entries dir algo rest (Slice ?fs) ?s] =>
        destruct (IH fs s) as (calls & Ht & Hr)
    end.
    eexists (calls ++ [_; _; _; _]). split.
    { rewrite Ht. simpl. by rewrite <- app_assoc. }
    match goal with |- match ?r with _ => _ end => destruct r as [files'|msg] end.
    + destruct Hr as (recs & -> & Hl). eexists (_ :: recs).
      split; [by rewrite <- app_assoc|].
      eapply loop_next_ok; [|done]. by eapply hashed.
    + eapply loop_next_err; [|done].
      match goal with
      | _ : os_Lstat _ _ = (Ok ?i, _), _ : file_ReadAll _ _ = (Ok ?d, _) |- _ =>
          by eapply hashed with (info := i) (data := d)
      end.
  - destruct (file_Close _ _) as [c s3]. cbn [append].
    match goal with
    | |- context [range_entries dir algo rest (Slice ?fs) ?s] =>
        destruct (IH fs s) as (calls & Ht & Hr)
    end.
    eexists (calls ++ [_; _; _]). split.
    { rewrite Ht. simpl. by rewrite <- app_assoc. }
    match goal with |- match ?r with _ => _ end => destruct r as [files'|msg] end.
    + destruct Hr as (recs & -> & Hl). eexists (_ :: recs).
      split; [by rewrite <- app_assoc|].
      eapply loop_next_ok; [|done]. by eapply not_hashed.
    + eapply loop_next_err; [|done].
      match goal with
      | _ : os_Lstat _ _ = (Ok ?i, _) |- _ =>
          by eapply not_hashed with (info := i)
      end.
Qed.

End Lister.

(** ** Facts about the calls of a listing *)

Section CallFacts.
Context {Lib : Library}.

Lemma entry_calls_Ok path algo rec calls e :
  entry_calls path algo (Ok rec) calls →
  e ∈ calls → ev_call e ≠ SysClose → ev_error e = None.
Proof.
  inversion 1; subst; intros He Hc;
    repeat (apply elem_of_cons in He as [->|He]); try done;
    by apply elem_of_nil in He.
Qed.

Lemma entry_calls_Err path algo msg calls :
  entry_calls path algo (Err msg) calls →
  ∃ e err, e ∈ calls ∧ ev_error e = Some err ∧
           ev_call e ∈ [SysLstat; SysOpen; SysRead] ∧
           msg = failure_text (ev_call e) err.
Proof.
  inversion 1; subst.
  - eexists _, _. split; [apply list_elem_of_here|].
    split; [reflexivity|]. split; [in_list|done].
  - eexists _, _. split; [apply list_elem_of_here|].
    split; [reflexivity|]. split; [in_list|done].
  - eexists _, _. split; [apply list_elem_of_further, list_elem_of_here|].
    split; [reflexivity|]. split; [in_list|done].
Qed.

Lemma entry_calls_opened path algo r calls p :
  entry_calls path algo r calls →
  mkEvent SysLstat p None ∈ calls → ∃ err, mkEvent SysOpen p err ∈ calls.
Proof.
  inversion 1; subst; intros He;
    repeat (apply elem_of_cons in He as [[=]|He]); subst;
    try (by apply elem_of_nil in He);
    eexists; repeat first [apply list_elem_of_here | apply list_elem_of_further].
Qed.

Lemma entry_calls_read path algo r calls e :
  entry_calls path algo r calls →
  e ∈ calls → ev_call e = SysRead → is_Some (NewHash algo).
Proof.
  inversion 1; subst; intros He Hc;
    repeat (apply elem_of_cons in He as [->|He]); try done;
    try (by apply elem_of_nil in He); by eexists.
Qed.

Lemma entry_calls_unhashed path algo rec calls :
  NewHash algo = None → entry_calls path algo (Ok rec) calls → HashSum rec = "".
Proof. intros Hn. inversion 1; subst; [done|congruence]. Qed.

Lemma loop_calls_Ok dir algo entries recs calls e :
  loop_calls dir algo entries (Ok recs) calls →
  e ∈ calls → ev_call e ≠ SysClose → ev_error e = None.
Proof.
  intros Hl. remember (Ok recs) as r eqn:Er. revert recs Er.
  induction Hl as [|entry rest m calls He
                   |entry rest rec calls rs calls' He Hl IH
                   |entry rest rec calls m calls' He Hl IH];
    intros recs' Er; try done.
  - by intros ?%elem_of_nil.
  - intros [?|?]%elem_of_app ?; [by eapply IH|by eapply entry_calls_Ok].
Qed.

Lemma loop_calls_Err dir algo entries msg calls :
  loop_calls dir algo entries (Err msg) calls →
  ∃ e err, e ∈ calls ∧ ev_error e = Some err ∧
           ev_call e ∈ [SysLstat; SysOpen; SysRead] ∧
           msg = failure_text (ev_call e) err.
Proof.
  intros Hl. remember (Err msg) as r eqn:Er. revert Er.
  induction Hl as [|entry rest m calls He
                   |entry rest rec calls rs calls' He Hl IH
                   |entry rest rec calls m calls' He Hl IH];
    intros Er; try done.
  - simplify_eq. by eapply entry_calls_Err.
  - destruct (IH Er) as (e & err & ? & ? & ? & ?).
    exists e, err. split; [|done]. apply elem_of_app. by left.
Qed.

Lemma loop_calls_opened dir algo entries r calls p :
  loop_calls dir algo entries r calls →
  mkEvent SysLstat p None ∈ calls → ∃ err, mkEvent SysOpen p err ∈ calls.
Proof.
  induction 1 as [|entry rest m calls He
                   |entry rest rec calls rs calls' He Hl IH
                   |entry rest rec calls m calls' He Hl IH].
  - by intros ?%elem_of_nil.
  - by eapply entry_calls_opened.
  - intros [Hin|Hin]%elem_of_app.
    + destruct (IH Hin) as [err ?]. exists err. apply elem_of_app. by left.
    + destruct (entry_calls_opened _ _ _ _ _ He Hin) as [err ?].
      exists err. apply elem_of_app. by right.
  - intros [Hin|Hin]%elem_of_app.
    + destruct (IH Hin) as [err ?]. exists err. apply elem_of_app. by left.
    + destruct (entry_calls_opened _ _ _ _ _ He Hin) as [err ?].
      exists err. apply elem_of_app. by right.
Qed.

Lemma loop_calls_read dir algo entries r calls e :
  loop_calls dir algo entries r calls →
  e ∈ calls → ev_call e = SysRead → is_Some (NewHash algo).
Proof.
  induction 1 as [|entry rest m calls He
                   |entry rest rec calls rs calls' He Hl IH
                   |entry rest rec calls m calls' He Hl IH].
  - by intros ?%elem_of_nil.
  - by eapply entry_calls_read.
  - intros [?|?]%elem_of_app ?; [by apply IH|by eapply entry_calls_read].
  - intros [?|?]%elem_of_app ?; [by apply IH|by eapply entry_calls_read].
Qed.

Lemma loop_calls_unhashed dir algo entries recs calls :
  NewHash algo = None →
  loop_calls dir algo entries (Ok recs) calls →
  Forall (λ f, HashSum f = "") recs.
Proof.
  intros Hn Hl. remember (Ok recs) as r eqn:Er. revert recs Er.
  induction Hl as [|entry rest m calls He
                   |entry rest rec calls rs calls' He Hl IH
                   |entry rest rec calls m calls' He Hl IH];
    intros recs' Er; simplify_eq.
  - constructor.
  - constructor; [by eapply entry_calls_unhashed|by apply IH].
Qed.

Lemma loop_calls_length dir algo entries recs calls :
  loop_calls dir algo entries (Ok recs) calls →
  List.length recs = List.length entries.
Proof.
  intros Hl. remember (Ok recs) as r eqn:Er. revert recs Er.
  induction Hl as [|entry rest m calls He
                   |entry rest rec calls rs calls' He Hl IH
                   |entry rest rec calls m calls' He Hl IH];
    intros recs' Er; simplify_eq; [done|].
  simpl. f_equal. by apply IH.
Qed.

End CallFacts.

(** * Sorting *)

Section SortFacts.
Context {A : Type} (less : A → A → bool).
Hypothesis less_asym : ∀ x y, less x y = true → less y x = false.

Lemma insert_left_HdRel x y below :
  less y x = false → HdRel (settled less) y below →
  HdRel (settled less) y (insert_left less x below).
Proof.
  intros Hyx Hhd. destruct below as [|z below]; simpl.
  - by constructor.
  - destruct (less x z); constructor; [by inversion Hhd|done].
Qed.

Lemma insert_left_Sorted x rev_prefix :
  Sorted (settled less) rev_prefix → Sorted (settled less) (insert_left less x rev_prefix).
Proof.
  induction 1 as [|y below Hs IH Hhd]; simpl.
  - by repeat constructor.
  - destruct (less x y) eqn:Hxy.
    + constructor; [done|]. apply insert_left_HdRel; [by apply less_asym|done].
    + constructor; [by constructor|]. by constructor.
Qed.

Lemma insert_left_Permutation x rev_prefix :
  insert_left less x rev_prefix ≡ₚ x :: rev_prefix.
Proof.
  induction rev_prefix as [|y below IH]; simpl; [done|].
  destruct (less x y); [|done]. rewrite IH. apply perm_swap.
Qed.

Lemma fold_insert_left_Sorted l acc :
  Sorted (settled less) acc →
  Sorted (settled less) (fold_left (λ rev_prefix x, insert_left less x rev_prefix) l acc).
Proof.
  revert acc. induction l as [|x l IH]; intros acc Hacc; simpl; [done|].
  apply IH. by apply insert_left_Sorted.
Qed.

Lemma fold_insert_left_Permutation l acc :
  fold_left (λ rev_prefix x, insert_left less x rev_prefix) l acc ≡ₚ l ++ acc.
Proof.
  revert acc. induction l as [|x l IH]; intros acc; simpl; [done|].
  rewrite IH, insert_left_Permutation. by rewrite Permutation_middle.
Qed.

(** After the sort no element is [less] than the one before it. *)
Lemma insertion_sort_Sorted l :
  Sorted (λ a b, less b a = false) (insertion_sort less l).
Proof.
  unfold insertion_sort.
  apply (Sorted_reverse (settled less)). apply fold_insert_left_Sorted. constructor.
Qed.

Lemma insertion_sort_Permutation l : insertion_sort less l ≡ₚ l.
Proof.
  unfold insertion_sort.
  rewrite reverse_Permutation, fold_insert_left_Permutation. by rewrite app_nil_r.
Qed.

End SortFacts.

Lemma later_first_asym a b : later_first a b = true → later_first b a = false.
Proof.
  unfold later_first. rewrite bool_decide_eq_true, bool_decide_eq_false. lia.
Qed.

(** Neighbours of a sorted list are related. *)
Lemma Sorted_lookup {A} (R : relation A) l i a b :
  Sorted R l → l !! i = Some a → l !! S i = Some b → R a b.
Proof.
  intros Hs. revert i. induction Hs as [|x l Hs IH Hhd]; intros i Ha Hb; [done|].
  destruct i as [|i]; simpl in *.
  - simplify_eq. destruct Hhd; simpl in *; by simplify_eq.
  - by eapply IH.
Qed.

(** The order of lines 136-138: a record is never older than the next. *)
Lemma sort_later_first_descending (recs : list FileInfo) i a b :
  insertion_sort later_first recs !! i = Some a →
  insertion_sort later_first recs !! S i = Some b →
  LastModified a >= LastModified b.
Proof.
  intros Ha Hb.
  pose proof (Sorted_lookup _ _ _ _ _
    (insertion_sort_Sorted later_first later_first_asym recs) Ha Hb) as Hab.
  simpl in Hab. unfold later_first in Hab.
  apply bool_decide_eq_false in Hab. lia.
Qed.

(** * The listing as a whole *)

Section Listing.
Context {W : Type} {Lib : Library} {Sys : OS W}.

(** What a listing writes into a fresh writer. *)
Lemma json_Encode_fresh (files : slice FileInfo) :
  let w' := json_Encode
              (Header_Add "Content-Type" "application/json" new_ResponseWriter)
              files in
  response_status w' = 200 ∧ json_reply w' ∧
  rw_Body w' = json_render (marshal_files files) +:+ newline.
Proof. repeat split. Qed.

(** The three ways through [listFilesAsJson]. *)
Lemma listFilesAsJson_unfold (w : ResponseWriter) (dir algo : string)
    (σ : World W) :
  listFilesAsJson w dir algo σ =
  match os_ReadDir dir (os_state σ) with
  | (Err e, s1) =>
      (http_Error w e StatusInternalServerError,
       mkWorld s1 (mkEvent SysReadDir dir (Some e) :: trace σ))
  | (Ok entries, s1) =>
      match range_entries dir algo entries (Slice [])
              (mkWorld s1 (mkEvent SysReadDir dir None :: trace σ)) with
      | (Err msg, σ') => (http_Error w msg StatusInternalServerError, σ')
      | (Ok files, σ') =>
          (json_Encode (Header_Add "Content-Type" "application/json" w)
             (sort_Slice later_first files), σ')
      end
  end.
Proof.
  unfold listFilesAsJson. run_M. next_call; [|done]. unfold make_slice.
  by destruct (range_entries _ _ _ _ _) as [[files|msg] σ'].
Qed.

(** The same, with the calls of the loop. *)
Lemma listFilesAsJson_run (w : ResponseWriter) (dir algo : string)
    (σ : World W) :
  let out := listFilesAsJson w dir algo σ in
  match os_ReadDir dir (os_state σ) with
  | (Err e, s1) =>
      out = (http_Error w e StatusInternalServerError,
             mkWorld s1 (mkEvent SysReadDir dir (Some e) :: trace σ))
  | (Ok entries, s1) =>
      ∃ calls,
        trace out.2 = calls ++ mkEvent SysReadDir dir None :: trace σ ∧
        ((∃ msg, loop_calls dir algo entries (Err msg) calls ∧
                 out.1 = http_Error w msg StatusInternalServerError) ∨
         (∃ recs, loop_calls dir algo entries (Ok recs) calls ∧
                  out.1 = json_Encode
                            (Header_Add "Content-Type" "application/json" w)
                            (Slice (insertion_sort later_first recs))))
  end.
Proof.
  intros out. subst out. rewrite listFilesAsJson_unfold.
  destruct (os_ReadDir dir (os_state σ)) as [[entries|e] s1]; [|done].
  match goal with
  | |- context [range_entries dir algo ?es (Slice ?fs) ?s] =>
      destruct (range_entries_calls dir algo es fs s) as (calls & Ht & Hr);
      destruct (range_entries dir algo es (Slice fs) s) as [[files'|msg] σ']
  end; simpl in *; exists calls; (split; [done|]).
  - destruct Hr as (recs & -> & Hl). right. by exists recs.
  - left. by exists msg.
Qed.

(** A listing that is written holds the records of the loop, sorted. *)
Lemma listing_written (dir algo : string) (s : W) :
  let out := listFilesAsJson new_ResponseWriter dir algo (mkWorld s []) in
  response_status out.1 = 200 →
  ∃ entries recs calls,
    (os_ReadDir dir s).1 = Ok entries ∧
    loop_calls dir algo entries (Ok recs) calls ∧
    trace out.2 = calls ++ [mkEvent SysReadDir dir None] ∧
    out.1 = json_Encode
              (Header_Add "Content-Type" "application/json" new_ResponseWriter)
              (Slice (insertion_sort later_first recs)).
Proof.
  intros out Hs.
  pose proof (listFilesAsJson_run new_ResponseWriter dir algo (mkWorld s []))
    as Hrun.
  fold out in Hrun. simpl in Hrun.
  destruct (os_ReadDir dir s) as [[entries|e] s1]; [|by rewrite Hrun in Hs].
  destruct Hrun as (calls & Ht & [(msg & Hl & Hw)|(recs & Hl & Hw)]);
    [by rewrite Hw in Hs|].
  by exists entries, recs, calls.
Qed.

(** The calls of any listing are those of the loop, after the reading of
    the directory. *)
Lemma listing_calls (dir algo : string) (s : W) :
  let out := listFilesAsJson new_ResponseWriter dir algo (mkWorld s []) in
  (∃ e, trace out.2 = [mkEvent SysReadDir dir (Some e)]) ∨
  (∃ entries r calls,
     loop_calls dir algo entries r calls ∧
     trace out.2 = calls ++ [mkEvent SysReadDir dir None]).
Proof.
  intros out.
  pose proof (listFilesAsJson_run new_ResponseWriter dir algo (mkWorld s []))
    as Hrun.
  fold out in Hrun. simpl in Hrun.
  destruct (os_ReadDir dir s) as [[entries|e] s1].
  - right. destruct Hrun as (calls & Ht & [(msg & Hl & _)|(recs & Hl & _)]);
      by eexists entries, _, calls.
  - left. exists e. by rewrite Hrun.
Qed.

(** C3, as the program has it.  For every listing: each entry whose
    metadata was read is opened, whatever the algorithm name; a file is
    read, that is streamed into a digest, only when the name selects a
    supported algorithm; and when the name is empty or not supported every
    record of a listing that is written has an empty hash. *)
Theorem listing_opens_all_reads_when_hashing (dir algo : string) (s : W) :
  let out := listFilesAsJson new_ResponseWriter dir algo (mkWorld s []) in
  (∀ path, mkEvent SysLstat path None ∈ trace out.2 →
           ∃ err, mkEvent SysOpen path err ∈ trace out.2) ∧
  (∀ e, e ∈ trace out.2 → ev_call e = SysRead → is_Some (NewHash algo)) ∧
  (NewHash algo = None → response_status out.1 = 200 →
     ∃ files,
       rw_Body out.1 = json_render (marshal_files (Slice files)) +:+ newline ∧
       Forall (λ f, HashSum f = "") files).
Proof.
  intros out. split; [|split].
  - intros path Hin.
    destruct (listing_calls dir algo s) as [[e He]|(entries & r & calls & Hl & Ht)];
      fold out in He || fold out in Ht.
    + rewrite He in Hin. by apply list_elem_of_singleton in Hin.
    + rewrite Ht in Hin |- *. apply elem_of_app in Hin as [Hin|Hin].
      * destruct (loop_calls_opened _ _ _ _ _ _ Hl Hin) as [err ?].
        exists err. apply elem_of_app. by left.
      * by apply list_elem_of_singleton in Hin.
  - intros e Hin Hc.
    destruct (listing_calls dir algo s) as [[e' He]|(entries & r & calls & Hl & Ht)];
      fold out in He || fold out in Ht.
    + rewrite He in Hin. apply list_elem_of_singleton in Hin. by subst e.
    + rewrite Ht in Hin. apply elem_of_app in Hin as [Hin|Hin].
      * by eapply loop_calls_read.
      * apply list_elem_of_singleton in Hin. by subst e.
  - intros Hn Hs.
    destruct (listing_written dir algo s Hs)
      as (entries & recs & calls & _ & Hl & _ & Hw).
    exists (insertion_sort later_first recs). fold out in Hw. rewrite Hw.
    split; [done|].
    rewrite insertion_sort_Permutation. by eapply loop_calls_unhashed.
Qed.

(** C4. In every listing that is written, the records are in the order of
    their modification times, latest first: each record's [lastModified]
    is at least that of the next.  The records are those gathered for the
    entries [os.ReadDir] returned, one for each. *)
Theorem listing_sorted_descending (dir algo : string) (s : W) :
  let out := listFilesAsJson new_ResponseWriter dir algo (mkWorld s []) in
  response_status out.1 = 200 →
  ∃ files,
    rw_Body out.1 =
      json_render (JArray (marshal_FileInfo <$> files)) +:+ newline ∧
    (∀ i a b, files !! i = Some a → files !! S i = Some b →
              LastModified a >= LastModified b) ∧
    ∃ entries recs calls,
      (os_ReadDir dir s).1 = Ok entries ∧
      loop_calls dir algo entries (Ok recs) calls ∧
      files ≡ₚ recs ∧ List.length files = List.length entries.
Proof.
  intros out Hs.
  destruct (listing_written dir algo s Hs)
    as (entries & recs & calls & Hr & Hl & _ & Hw).
  exists (insertion_sort later_first recs). fold out in Hw. rewrite Hw.
  split; [done|]. split; [apply sort_later_first_descending|].
  exists entries, recs, calls. repeat split; try done.
  - apply insertion_sort_Permutation.
  - rewrite insertion_sort_Permutation. by eapply loop_calls_length.
Qed.

(** C6. When the algorithm name is empty or not supported, every element
    of the array a listing writes is an object with exactly the keys
    [name], [size] and [lastModified]: there is no [hashSum] key, with any
    value. *)
Theorem listing_without_hashSum (dir algo : string) (s : W) :
  let out := listFilesAsJson new_ResponseWriter dir algo (mkWorld s []) in
  NewHash algo = None →
  response_status out.1 = 200 →
  ∃ items,
    rw_Body out.1 = json_render (JArray items) +:+ newline ∧
    Forall (λ item, json_keys item = ["name"; "size"; "lastModified"]) items ∧
    Forall (λ item, "hashSum" ∉ json_keys item) items.
Proof.
  intros out Hn Hs.
  destruct (listing_written dir algo s Hs)
    as (entries & recs & calls & _ & Hl & _ & Hw).
  exists (marshal_FileInfo <$> insertion_sort later_first recs).
  fold out in Hw. rewrite Hw. split; [done|].
  assert (Forall (λ item, json_keys item = ["name"; "size"; "lastModified"])
            (marshal_FileInfo <$> insertion_sort later_first recs)) as Hk.
  { apply Forall_fmap. rewrite insertion_sort_Permutation.
    eapply Forall_impl; [by eapply loop_calls_unhashed|].
    intros f Hf. simpl. unfold marshal_FileInfo. by rewrite Hf. }
  split; [done|]. eapply Forall_impl; [done|].
  intros item ->. not_in_list.
Qed.

(** C7. When a call that reads the file system fails during a listing
    (reading the directory, an entry's metadata, opening a file, reading
    it), the reply is 500 and plain text, and its body is nothing but the
    message of a failed call on one line: no JSON was written before it. *)
Theorem listing_aborts_on_failure (dir algo : string) (s : W) :
  let out := listFilesAsJson new_ResponseWriter dir algo (mkWorld s []) in
  (∃ e, e ∈ trace out.2 ∧ is_Some (ev_error e) ∧
        ev_call e ∈ [SysReadDir; SysLstat; SysOpen; SysRead]) →
  response_status out.1 = 500 ∧ plain_text out.1 ∧
  ∃ e err, e ∈ trace out.2 ∧ ev_error e = Some err ∧
           ev_call e ∈ [SysReadDir; SysLstat; SysOpen; SysRead] ∧
           rw_Body out.1 = failure_text (ev_call e) err +:+ newline.
Proof.
  intros out (e & Hin & Herr & Hcall).
  pose proof (listFilesAsJson_run new_ResponseWriter dir algo (mkWorld s []))
    as Hrun.
  fold out in Hrun. simpl in Hrun.
  destruct (os_ReadDir dir s) as [[entries|e0] s1].
  - destruct Hrun as (calls & Ht & [(msg & Hl & Hw)|(recs & Hl & Hw)]).
    + rewrite Hw.
      destruct (http_Error_fresh new_ResponseWriter msg 500 eq_refl)
        as (Hst & Hb & Hp).
      split; [done|]. split; [done|].
      destruct (loop_calls_Err _ _ _ _ _ Hl)
        as (e' & err & Hin' & He' & Hc' & ->).
      exists e', err. rewrite Ht. split; [apply elem_of_app; by left|].
      split; [done|]. split; [by apply list_elem_of_further|done].
    + exfalso. rewrite Ht in Hin. apply elem_of_app in Hin as [Hin|Hin].
      * assert (ev_call e ≠ SysClose) as Hc.
        { intros Hc. rewrite Hc in Hcall. revert Hcall. not_in_list. }
        rewrite (loop_calls_Ok _ _ _ _ _ _ Hl Hin Hc) in Herr.
        by destruct Herr.
      * apply list_elem_of_singleton in Hin. subst e. by destruct Herr.
  - rewrite Hrun. simpl.
    destruct (http_Error_fresh new_ResponseWriter e0 500 eq_refl)
      as (Hst & Hb & Hp).
    split; [done|]. split; [done|].
    eexists _, e0. split; [apply list_elem_of_here|].
    split; [done|]. split; [in_list|done].
Qed.

(** C8. When the directory has no entry, the listing replies 200 with the
    JSON array with no element, the text [[]] and a line feed, whatever
    the algorithm name: what is encoded is an empty slice that is not
    nil, and so not the text [null]. *)
Theorem empty_directory_listing (dir algo : string) (σ : World W) (s1 : W) :
  os_ReadDir dir (os_state σ) = (Ok [], s1) →
  let w' := (listFilesAsJson new_ResponseWriter dir algo σ).1 in
  response_status w' = 200 ∧ json_reply w' ∧
  rw_Body w' = "[]" +:+ newline ∧
  w' = json_Encode
         (Header_Add "Content-Type" "application/json" new_ResponseWriter)
         (Slice []) ∧
  marshal_files (Slice []) = JArray [] ∧
  json_render (marshal_files NilSlice) = "null".
Proof.
  intros Hr w'. subst w'. rewrite listFilesAsJson_unfold, Hr. done.
Qed.

End Listing.

(** ** The listing on examples *)

(** C3 as the claim has it fails.  With the empty algorithm name, which
    selects no algorithm, the file [/d/a.txt] is opened all the same; and
    where the one file of the directory cannot be opened the listing fails
    with 500, though reading its metadata succeeds. *)
Lemma listing_opens_without_algorithm :
  let out := listFilesAsJson (Lib := ExampleLibrary) (Sys := TreeFS)
               new_ResponseWriter "/d" "" (mkWorld example_root []) in
  let locked := listFilesAsJson (Lib := ExampleLibrary) (Sys := TreeFS)
                  new_ResponseWriter "/d" "" (mkWorld locked_root []) in
  NewHash "" = None ∧
  mkEvent SysOpen "/d/a.txt" None ∈ trace out.2 ∧
  ¬ (∀ e, e ∈ trace out.2 → ev_call e = SysOpen → is_Some (NewHash "")) ∧
  mkEvent SysLstat "/d/locked" None ∈ trace locked.2 ∧
  response_status locked.1 = 500 ∧
  rw_Body locked.1 =
    "failed to open file: open /d/locked: permission denied" +:+ newline.
Proof.
  assert (mkEvent SysOpen "/d/a.txt" None
          ∈ trace (listFilesAsJson (Lib := ExampleLibrary) (Sys := TreeFS)
                     new_ResponseWriter "/d" "" (mkWorld example_root [])).2)
    as Hopen by (vm_compute; in_list).
  split; [reflexivity|]. split; [exact Hopen|]. split.
  { intros Hall. by destruct (Hall _ Hopen eq_refl). }
  split; [vm_compute; in_list|]. split; vm_compute; reflexivity.
Qed.

Lemma listing_opens_all_reads_when_hashing_witness :
  let out := listFilesAsJson (Lib := ExampleLibrary) (Sys := TreeFS)
               new_ResponseWriter "/d" "" (mkWorld example_root []) in
  NewHash "" = None ∧ response_status out.1 = 200 ∧
  (∃ err, mkEvent SysOpen "/d/sub" err ∈ trace out.2) ∧
  ∃ files,
    rw_Body out.1 =
      json_render (Lib := ExampleLibrary) (marshal_files (Slice files))
      +:+ newline ∧
    Forall (λ f, HashSum f = "") files.
Proof.
  assert (response_status
            (listFilesAsJson (Lib := ExampleLibrary) (Sys := TreeFS)
               new_ResponseWriter "/d" "" (mkWorld example_root [])).1 = 200)
    as Hs by (vm_compute; reflexivity).
  split; [reflexivity|]. split; [exact Hs|]. split.
  - refine (proj1 (listing_opens_all_reads_when_hashing
                     (Lib := ExampleLibrary) (Sys := TreeFS)
                     "/d" "" example_root) "/d/sub" _).
    vm_compute. in_list.
  - exact (proj2 (proj2 (listing_opens_all_reads_when_hashing
                           (Lib := ExampleLibrary) (Sys := TreeFS)
                           "/d" "" example_root)) eq_refl Hs).
Defined.

Lemma listing_sorted_descending_witness :
  let out := listFilesAsJson (Lib := ExampleLibrary) (Sys := TreeFS)
               new_ResponseWriter "/d" "" (mkWorld example_root []) in
  response_status out.1 = 200 ∧
  ∃ files,
    rw_Body out.1 =
      json_render (Lib := ExampleLibrary) (JArray (marshal_FileInfo <$> files)) +:+ newline ∧
    (∀ i a b, files !! i = Some a → files !! S i = Some b →
              LastModified a >= LastModified b) ∧
    ∃ entries recs calls,
      (os_ReadDir "/d" example_root).1 = Ok entries ∧
      loop_calls (Lib := ExampleLibrary) "/d" "" entries (Ok recs) calls ∧
      files ≡ₚ recs ∧ List.length files = List.length entries.
Proof.
  assert (response_status
            (listFilesAsJson (Lib := ExampleLibrary) (Sys := TreeFS)
               new_ResponseWriter "/d" "" (mkWorld example_root [])).1 = 200)
    as Hs by (vm_compute; reflexivity).
  split; [exact Hs|].
  exact (listing_sorted_descending (Lib := ExampleLibrary) (Sys := TreeFS)
           "/d" "" example_root Hs).
Defined.

(** The listing of the example, as sent: the latest file first. *)
Example listing_of_example :
  rw_Body (listFilesAsJson (Lib := ExampleLibrary) (Sys := TreeFS)
             new_ResponseWriter "/d" "" (mkWorld example_root [])).1
  = "[{" +:+ quote_char +:+ "name" +:+ quote_char +:+ ":"
         +:+ quote_char +:+ "a.txt" +:+ quote_char +:+ ","
         +:+ quote_char +:+ "size" +:+ quote_char +:+ ":2,"
         +:+ quote_char +:+ "lastModified" +:+ quote_char +:+ ":30},{"
         +:+ quote_char +:+ "name" +:+ quote_char +:+ ":"
         +:+ quote_char +:+ "sub" +:+ quote_char +:+ ","
         +:+ quote_char +:+ "size" +:+ quote_char +:+ ":4096,"
         +:+ quote_char +:+ "lastModified" +:+ quote_char +:+ ":25},{"
         +:+ quote_char +:+ "name" +:+ quote_char +:+ ":"
         +:+ quote_char +:+ "b.txt" +:+ quote_char +:+ ","
         +:+ quote_char +:+ "size" +:+ quote_char +:+ ":5,"
         +:+ quote_char +:+ "lastModified" +:+ quote_char +:+ ":20}]"
         +:+ newline.
Proof. vm_compute. reflexivity. Qed.

Lemma listing_without_hashSum_witness :
  let out := listFilesAsJson (Lib := ExampleLibrary) (Sys := TreeFS)
               new_ResponseWriter "/d" "sha-1" (mkWorld example_root []) in
  NewHash "sha-1" = None ∧ response_status out.1 = 200 ∧
  ∃ items,
    rw_Body out.1 = json_render (Lib := ExampleLibrary) (JArray items) +:+ newline ∧
    Forall (λ item, json_keys item = ["name"; "size"; "lastModified"]) items ∧
    Forall (λ item, "hashSum" ∉ json_keys item) items.
Proof.
  assert (response_status
            (listFilesAsJson (Lib := ExampleLibrary) (Sys := TreeFS)
               new_ResponseWriter "/d" "sha-1" (mkWorld example_root [])).1
          = 200) as Hs by (vm_compute; reflexivity).
  split; [reflexivity|]. split; [exact Hs|].
  exact (listing_without_hashSum (Lib := ExampleLibrary) (Sys := TreeFS)
           "/d" "sha-1" example_root eq_refl Hs).
Defined.

Lemma listing_aborts_on_failure_witness :
  let out := listFilesAsJson (Lib := ExampleLibrary) (Sys := TreeFS)
               new_ResponseWriter "/d" "md5" (mkWorld locked_root []) in
  response_status out.1 = 500 ∧ plain_text out.1 ∧
  ∃ e err, e ∈ trace out.2 ∧ ev_error e = Some err ∧
           ev_call e ∈ [SysReadDir; SysLstat; SysOpen; SysRead] ∧
           rw_Body out.1 = failure_text (ev_call e) err +:+ newline.
Proof.
  apply (listing_aborts_on_failure (Lib := ExampleLibrary) (Sys := TreeFS)
           "/d" "md5" locked_root).
  exists (mkEvent SysOpen "/d/locked"
            (Some "open /d/locked: permission denied")).
  split; [vm_compute; in_list|]. split; [by eexists|in_list].
Defined.

Lemma empty_directory_listing_witness :
  let w' := (listFilesAsJson (Lib := ExampleLibrary) (Sys := TreeFS)
               new_ResponseWriter "/d" "sha256" (mkWorld empty_root [])).1 in
  os_ReadDir "/d" empty_root = (Ok [], empty_root) ∧
  response_status w' = 200 ∧ json_reply w' ∧
  rw_Body w' = "[]" +:+ newline.
Proof.
  assert (os_ReadDir "/d" empty_root = (Ok [], empty_root)) as Hr
    by (vm_compute; reflexivity).
  split; [exact Hr|].
  destruct (empty_directory_listing (Lib := ExampleLibrary) (Sys := TreeFS)
              "/d" "sha256" (mkWorld empty_root []) empty_root Hr)
    as (Hs & Hj & Hb & _).
  exact (conj Hs (conj Hj Hb)).
Defined.

(** * Paths in the tree *)

Lemma strings_Split_slash_not_nil s : strings_Split_slash s ≠ [].
Proof.
  destruct s as [|c s]; [done|]. simpl.
  destruct (strings_Split_slash s); [done|]. by case_decide.
Qed.

Lemma strings_Split_slash_cons c s :
  strings_Split_slash (String c s) =
  match strings_Split_slash s with
  | seg :: segs =>
      if decide (c = "/"%char) then "" :: seg :: segs else String c seg :: segs
  | [] => []
  end.
Proof.
  pose proof (strings_Split_slash_not_nil s). simpl.
  by destruct (strings_Split_slash s).
Qed.

(** Splitting at a slash splits the list of segments. *)
Lemma strings_Split_slash_app a b :
  strings_Split_slash (a +:+ "/" +:+ b) =
  strings_Split_slash a ++ strings_Split_slash b.
Proof.
  pose proof (strings_Split_slash_not_nil b) as Hb.
  induction a as [|c a IH].
  - change ("" +:+ "/" +:+ b) with (String "/" b).
    rewrite strings_Split_slash_cons.
    destruct (strings_Split_slash b); [done|]. by rewrite decide_True.
  - change (String c a +:+ "/" +:+ b) with (String c (a +:+ "/" +:+ b)).
    rewrite !strings_Split_slash_cons, IH.
    pose proof (strings_Split_slash_not_nil a).
    destruct (strings_Split_slash a); [done|]. simpl. by case_decide.
Qed.

Lemma path_segments_entry dir name :
  is_name name →
  path_segments (dir +:+ "/" +:+ name) = path_segments dir ++ [name].
Proof.
  intros [Hne Hs]. unfold slash_free in Hs. unfold path_segments.
  rewrite strings_Split_slash_app, filter_app, Hs.
  rewrite filter_cons_True by done. done.
Qed.

Lemma base_name_entry dir name :
  is_name name → base_name (dir +:+ "/" +:+ name) = name.
Proof.
  intros Hn. unfold base_name. rewrite path_segments_entry by done.
  by rewrite last_snoc.
Qed.

Lemma resolve_app root segs rest :
  resolve root (segs ++ rest) =
  match resolve root segs with
  | inl e => inl e
  | inr n => resolve n rest
  end.
Proof.
  revert root. induction segs as [|seg segs IH]; intros root; [done|].
  simpl. destruct root as [|entries ? ?]; [done|].
  destruct (find_entry seg entries); [apply IH|done].
Qed.

(** The node of an entry of a directory. *)
Lemma resolve_entry root dir entries mtime size name :
  is_name name →
  resolve root (path_segments dir) = inr (Directory entries mtime size) →
  resolve root (path_segments (dir +:+ "/" +:+ name)) =
  match find_entry name entries with
  | Some c => inr c
  | None => inl ENOENT
  end.
Proof.
  intros Hn Hd. rewrite path_segments_entry, resolve_app, Hd by done.
  simpl. by destruct (find_entry name entries).
Qed.

Lemma find_entry_Some_elem name entries c :
  find_entry name entries = Some c → name ∈ entries.*1.
Proof.
  induction entries as [|[n c'] entries IH]; [done|]. simpl.
  case_decide; [intros _; subst; apply list_elem_of_here|].
  intros ?. apply list_elem_of_further. by apply IH.
Qed.

(** * Listing a tree *)

Section TreeListing.
Context {Lib : Library}.

(** One turn of the loop, on the tree. *)
Lemma tree_range_entries_cons (dir algo entry : string) (rest : list string)
    (files : list FileInfo) (root : Node) (tr : list Event) :
  let path := dir +:+ "/" +:+ entry in
  range_entries dir algo (entry :: rest) (Slice files) (mkWorld root tr) =
  match resolve root (path_segments path) with
  | inl e =>
      (Err (PathError "lstat" path e),
       mkWorld root (mkEvent SysLstat path (Some (PathError "lstat" path e)) :: tr))
  | inr (RegFile content mtime false) =>
      (Err ("failed to open file: " +:+ PathError "open" path EACCES),
       mkWorld root (mkEvent SysOpen path (Some (PathError "open" path EACCES))
                     :: mkEvent SysLstat path None :: tr))
  | inr n =>
      match NewHash algo, n with
      | None, _ =>
          range_entries dir algo rest (Slice (files ++ [node_record path n ""]))
            (mkWorld root (mkEvent SysClose path None
                           :: mkEvent SysOpen path None
                           :: mkEvent SysLstat path None :: tr))
      | Some h, RegFile content _ _ =>
          range_entries dir algo rest
            (Slice (files ++ [node_record path n
                                (fmt_hex (Hash_Sum (Hash_Write h content)))]))
            (mkWorld root (mkEvent SysClose path None
                           :: mkEvent SysRead path None
                           :: mkEvent SysOpen path None
                           :: mkEvent SysLstat path None :: tr))
      | Some h, Directory _ _ _ =>
          (Err ("failed to copy: " +:+ PathError "read" path EISDIR),
           mkWorld root (mkEvent SysClose path None
                         :: mkEvent SysRead path (Some (PathError "read" path EISDIR))
                         :: mkEvent SysOpen path None
                         :: mkEvent SysLstat path None :: tr))
      end
  end.
Proof.
  intros path. subst path. cbn [range_entries]. run_M.
  unfold os_Lstat, TreeFS, fs_Stat.
  destruct (resolve root (path_segments _)) as [e|n] eqn:Er; [done|].
  cbn [os_state trace result_error]. rewrite getHash_run.
  unfold os_Open, file_ReadAll, file_Close, TreeFS, fs_Open, fs_ReadAll, fs_Close.
  cbn [os_state trace result_error]. rewrite Er.
  destruct n as [content mtime [|]|entries mtime size];
    cbn [os_state trace result_error]; try done.
  - destruct (NewHash algo); cbn [os_state trace result_error]; by rewrite ?Er.
  - destruct (NewHash algo); cbn [os_state trace result_error]; by rewrite ?Er.
Qed.

(** With a supported algorithm the loop stops at a directory, if not
    before. *)
Lemma tree_loop_stops_at_directory (dir algo name : string) (h : Hash)
    (root : Node) (sub : list (string * Node)) (mtime size : Z) :
  NewHash algo = Some h →
  resolve root (path_segments (dir +:+ "/" +:+ name)) = inr (Directory sub mtime size) →
  ∀ entries files tr, name ∈ entries →
    ∃ msg tr', range_entries dir algo entries (Slice files) (mkWorld root tr)
               = (Err msg, mkWorld root tr').
Proof.
  intros Hh Hsub entries. induction entries as [|entry rest IH];
    intros files tr Hin; [by apply elem_of_nil in Hin|].
  rewrite tree_range_entries_cons, Hh.
  destruct (resolve root (path_segments (dir +:+ "/" +:+ entry)))
    as [e|[content mt [|]|es mt sz]] eqn:Er; try by eauto.
  apply elem_of_cons in Hin as [->|Hin]; [congruence|]. by apply IH.
Qed.

(** Without a supported algorithm a listing that goes through has a record
    for every entry that leads to a node. *)
Lemma tree_loop_records (dir algo : string) (root : Node) :
  NewHash algo = None →
  ∀ entries files tr files' σ',
    range_entries dir algo entries (Slice files) (mkWorld root tr)
    = (Ok files', σ') →
    ∃ recs, files' = Slice (files ++ recs) ∧
      ∀ name n, name ∈ entries →
        resolve root (path_segments (dir +:+ "/" +:+ name)) = inr n →
        node_record (dir +:+ "/" +:+ name) n "" ∈ recs.
Proof.
  intros Hh entries. induction entries as [|entry rest IH];
    intros files tr files' σ' Hrun.
  { simpl in Hrun. injection Hrun as <- <-. exists [].
    split; [by rewrite app_nil_r|]. by intros ?? ?%elem_of_nil. }
  rewrite tree_range_entries_cons, Hh in Hrun.
  destruct (resolve root (path_segments (dir +:+ "/" +:+ entry)))
    as [e|n] eqn:Er; [done|].
  assert (range_entries dir algo rest
            (Slice (files ++ [node_record (dir +:+ "/" +:+ entry) n ""]))
            (mkWorld root (mkEvent SysClose (dir +:+ "/" +:+ entry) None
                           :: mkEvent SysOpen (dir +:+ "/" +:+ entry) None
                           :: mkEvent SysLstat (dir +:+ "/" +:+ entry) None :: tr))
          = (Ok files', σ')) as Hrest.
  { by destruct n as [? ? [|]|]. }
  destruct (IH _ _ _ _ Hrest) as (recs & -> & Hrecs).
  exists (node_record (dir +:+ "/" +:+ entry) n "" :: recs).
  split; [by rewrite <- app_assoc|].
  intros name n' [->|Hin]%elem_of_cons Hn'.
  - rewrite Er in Hn'. injection Hn' as <-. apply list_elem_of_here.
  - apply list_elem_of_further. by apply Hrecs.
Qed.

End TreeListing.

Section TreeClaims.
Context {Lib : Library}.

Lemma tree_ReadDir dir root entries mtime size :
  resolve root (path_segments dir) = inr (Directory entries mtime size) →
  os_ReadDir dir root = (Ok (merge_sort String.le entries.*1), root).
Proof. intros Hd. unfold os_ReadDir, TreeFS, fs_ReadDir. by rewrite Hd. Qed.

(** C10. In a directory of the tree that has a subdirectory [name]: a
    listing without a supported algorithm that goes through has a record
    for [name], with the size and the modification time of the
    subdirectory and no hash; with a supported algorithm, reading the
    subdirectory fails ("is a directory") and the listing replies 500 in
    plain text. *)
Theorem listing_with_subdirectory (dir algo name : string) (root : Node)
    (entries sub : list (string * Node)) (mtime size m sz : Z) :
  resolve root (path_segments dir) = inr (Directory entries mtime size) →
  find_entry name entries = Some (Directory sub m sz) →
  is_name name →
  let out := listFilesAsJson new_ResponseWriter dir algo (mkWorld root []) in
  (NewHash algo = None → response_status out.1 = 200 →
     ∃ files,
       rw_Body out.1 =
         json_render (JArray (marshal_FileInfo <$> files)) +:+ newline ∧
       mkFileInfo name sz m "" ∈ files) ∧
  (is_Some (NewHash algo) →
     (file_ReadAll (dir +:+ "/" +:+ name) root).1 =
       Err (PathError "read" (dir +:+ "/" +:+ name) EISDIR) ∧
     response_status out.1 = 500 ∧ plain_text out.1).
Proof.
  intros Hd Hf Hn out.
  assert (resolve root (path_segments (dir +:+ "/" +:+ name))
          = inr (Directory sub m sz)) as Hsub.
  { by rewrite (resolve_entry _ _ _ _ _ _ Hn Hd), Hf. }
  assert (name ∈ merge_sort String.le entries.*1) as Hin.
  { rewrite merge_sort_Permutation. by eapply find_entry_Some_elem. }
  subst out. rewrite listFilesAsJson_unfold. cbn [os_state trace].
  rewrite (tree_ReadDir _ _ _ _ _ Hd). split.
  - intros Hh Hs.
    destruct (range_entries _ _ _ _ _) as [[files'|msg] σ'] eqn:Hrun;
      [|done].
    destruct (tree_loop_records dir algo root Hh _ _ _ _ _ Hrun)
      as (recs & -> & Hrecs).
    exists (insertion_sort later_first recs). split; [done|].
    rewrite insertion_sort_Permutation.
    specialize (Hrecs name _ Hin Hsub).
    unfold node_record in Hrecs. simpl in Hrecs.
    by rewrite base_name_entry in Hrecs.
  - intros [h Hh]. split.
    { unfold file_ReadAll, TreeFS, fs_ReadAll. by rewrite Hsub. }
    destruct (tree_loop_stops_at_directory dir algo name h root sub m sz Hh Hsub
                (merge_sort String.le entries.*1) []
                [mkEvent SysReadDir dir None] Hin) as (msg & tr' & ->).
    by destruct (http_Error_fresh new_ResponseWriter msg 500 eq_refl) as (?&?&?).
Qed.

End TreeClaims.

Lemma listing_with_subdirectory_witness :
  let plain := listFilesAsJson (Lib := ExampleLibrary) (Sys := TreeFS)
                 new_ResponseWriter "/d" "" (mkWorld example_root []) in
  let hashing := listFilesAsJson (Lib := ExampleLibrary) (Sys := TreeFS)
                   new_ResponseWriter "/d" "SHA1" (mkWorld example_root []) in
  is_name "sub" ∧
  (∃ files,
     rw_Body plain.1 =
       json_render (Lib := ExampleLibrary) (JArray (marshal_FileInfo <$> files))
       +:+ newline ∧
     mkFileInfo "sub" 4096 25 "" ∈ files) ∧
  response_status hashing.1 = 500 ∧ plain_text hashing.1.
Proof.
  assert (is_name "sub") as Hn by (split; [done|reflexivity]).
  split; [exact Hn|]. split.
  - refine (proj1 (listing_with_subdirectory (Lib := ExampleLibrary)
                     "/d" "" "sub" example_root _ _ 5 4096 25 4096
                     eq_refl eq_refl Hn) eq_refl _).
    vm_compute. reflexivity.
  - refine (proj2 (proj2 (listing_with_subdirectory (Lib := ExampleLibrary)
                     "/d" "SHA1" "sub" example_root _ _ 5 4096 25 4096
                     eq_refl eq_refl Hn) _)).
    by eexists.
Defined.

(** * Cleaned paths *)

Lemma string_app_assoc (a b c : string) : (a +:+ b) +:+ c = a +:+ b +:+ c.
Proof.
  induction a as [|x a IH]; [done|].
  change (String x ((a +:+ b) +:+ c) = String x (a +:+ b +:+ c)). by f_equal.
Qed.

Lemma string_app_nil_r (a : string) : a +:+ "" = a.
Proof.
  induction a as [|x a IH]; [done|].
  change (String x (a +:+ "") = String x a). by f_equal.
Qed.

Lemma string_app_eq_nil (a b : string) : a +:+ b = "" → a = "".
Proof. by destruct a. Qed.

Lemma slash_free_cons c seg :
  c ≠ "/"%char → slash_free seg → slash_free (String c seg).
Proof.
  unfold slash_free. intros Hc Hs. rewrite strings_Split_slash_cons, Hs.
  by rewrite decide_False.
Qed.

Lemma strings_Split_slash_free s : Forall slash_free (strings_Split_slash s).
Proof.
  induction s as [|c s IH]; [by repeat constructor|].
  rewrite strings_Split_slash_cons.
  destruct (strings_Split_slash s) as [|seg segs]; [done|].
  inversion IH; subst. case_decide.
  - by repeat constructor.
  - constructor; [by apply slash_free_cons|done].
Qed.

Lemma slash_free_not_rooted seg : slash_free seg → is_rooted seg = false.
Proof.
  destruct seg as [|c seg]; [done|]. unfold slash_free.
  rewrite strings_Split_slash_cons. simpl.
  destruct (strings_Split_slash seg); [done|].
  case_bool_decide; [|done]. by rewrite decide_True.
Qed.

Lemma is_rooted_app a b : a ≠ "" → is_rooted (a +:+ b) = is_rooted a.
Proof. by destruct a. Qed.

Lemma clean_segment_kept rooted kept seg :
  slash_free seg → clean_kept rooted kept →
  clean_kept rooted (clean_segment rooted kept seg).
Proof.
  intros Hs (tops & k & -> & Ht & Hk). unfold clean_segment.
  repeat case_decide; try by (exists tops, k).
  - destruct tops as [|top tops]; simpl.
    + destruct k as [|k]; simpl.
      * destruct rooted; [by exists [], 0%nat|by exists [], 1%nat].
      * exists [], (S (S k)).
        split; [done|]. split; [done|]. intros Hr. by specialize (Hk Hr).
    + inversion Ht as [|?? (_ & _ & Hdd & _) Ht']; subst.
      case_decide; [done|]. by exists tops, k.
  - exists (seg :: tops), k. split; [done|]. split; [|done].
    by constructor.
Qed.

Lemma fold_clean_kept rooted segs kept :
  Forall slash_free segs → clean_kept rooted kept →
  clean_kept rooted (fold_left (clean_segment rooted) segs kept).
Proof.
  intros Hs. revert kept. induction Hs as [|seg segs Hseg Hs IH];
    intros kept Hk; [done|].
  simpl. apply IH. by apply clean_segment_kept.
Qed.

Lemma clean_kept_nil rooted : clean_kept rooted [].
Proof. by exists [], 0%nat. Qed.

(** Cleaning the segments kept keeps them all. *)
Lemma fold_clean_dotdots k j :
  fold_left (clean_segment false) (replicate k "..") (replicate j "..")
  = replicate (k + j) "..".
Proof.
  revert j. induction k as [|k IH]; intros j; [done|].
  simpl. replace (clean_segment false (replicate j "..") "..")
    with (replicate (S j) "..").
  - rewrite IH. by rewrite Nat.add_succ_r.
  - unfold clean_segment. simpl. by destruct j.
Qed.

Lemma fold_clean_plain rooted names acc :
  Forall plain_seg names →
  fold_left (clean_segment rooted) names acc = reverse names ++ acc.
Proof.
  intros Hn. revert acc. induction Hn as [|seg names (?&?&?&?) Hn IH];
    intros acc; [done|].
  simpl. rewrite IH, reverse_cons. unfold clean_segment.
  rewrite !decide_False by done. by rewrite <- app_assoc.
Qed.

Lemma fold_clean_again rooted kept :
  clean_kept rooted kept →
  fold_left (clean_segment rooted) (reverse kept) [] = kept.
Proof.
  intros (tops & k & -> & Ht & Hk).
  rewrite reverse_app, fold_left_app, reverse_replicate.
  assert (fold_left (clean_segment rooted) (replicate k "..") []
          = replicate k "..") as ->.
  { destruct rooted.
    - by rewrite Hk.
    - change [] with (replicate 0 "..") at 1.
      rewrite fold_clean_dotdots. by rewrite Nat.add_0_r. }
  rewrite fold_clean_plain by (by apply Forall_reverse).
  by rewrite reverse_involutive.
Qed.

Lemma strings_Join_cons seg seg' segs :
  strings_Join (seg :: seg' :: segs) "/" =
  seg +:+ "/" +:+ strings_Join (seg' :: segs) "/".
Proof. done. Qed.

(** Joining segments and splitting again gives the segments. *)
Lemma strings_Split_Join segs :
  segs ≠ [] → Forall slash_free segs →
  strings_Split_slash (strings_Join segs "/") = segs.
Proof.
  intros Hne Hs. induction Hs as [|seg segs Hseg Hs IH]; [done|].
  destruct segs as [|seg' segs]; [done|].
  rewrite strings_Join_cons, strings_Split_slash_app, Hseg, IH; done.
Qed.

Lemma strings_Join_rooted seg segs :
  seg ≠ "" →
  is_rooted (strings_Join (seg :: segs) "/") = is_rooted seg.
Proof.
  intros Hne. destruct segs as [|seg' segs]; [done|].
  rewrite strings_Join_cons. by apply is_rooted_app.
Qed.

Lemma slash_free_dotdot : slash_free "..".
Proof. done. Qed.

Lemma clean_kept_segments rooted kept :
  clean_kept rooted kept →
  Forall (λ seg, seg ≠ "" ∧ slash_free seg) (reverse kept).
Proof.
  intros (tops & k & -> & Ht & _). apply Forall_reverse, Forall_app. split.
  - eapply Forall_impl; [done|]. by intros seg (?&?&?&?).
  - apply Forall_replicate. split; [done|apply slash_free_dotdot].
Qed.

Lemma filter_nonempty_segments (segs : list string) :
  Forall (λ seg, seg ≠ "" ∧ slash_free seg) segs →
  filter (λ seg, seg ≠ "") segs = segs.
Proof.
  induction 1 as [|seg segs [? ?] Hs IH]; [done|].
  rewrite filter_cons_True by done. by rewrite IH.
Qed.

Lemma strings_Split_slash_rooted s :
  strings_Split_slash (String "/" s) = "" :: strings_Split_slash s.
Proof.
  rewrite strings_Split_slash_cons.
  pose proof (strings_Split_slash_not_nil s).
  by destruct (strings_Split_slash s).
Qed.

Lemma clean_segment_empty rooted kept : clean_segment rooted kept "" = kept.
Proof. done. Qed.

Lemma filepath_Clean_nonempty path :
  path ≠ "" →
  filepath_Clean path =
  let text := clean_text (is_rooted path)
                (fold_left (clean_segment (is_rooted path))
                   (strings_Split_slash path) []) in
  if decide (text = "") then "." else text.
Proof. intros Hne. unfold filepath_Clean. by rewrite decide_False. Qed.

(** A cleaned text splits into the segments kept, is rooted as the path
    was, and cleaning it again (also with a slash after it) changes
    nothing. *)
Lemma clean_text_stable rooted kept :
  clean_kept rooted kept →
  clean_text rooted kept ≠ "" →
  path_segments (clean_text rooted kept) = reverse kept ∧
  filepath_Clean (clean_text rooted kept) = clean_text rooted kept ∧
  filepath_Clean (clean_text rooted kept +:+ "/") = clean_text rooted kept.
Proof.
  intros Hk Hne. pose proof (clean_kept_segments _ _ Hk) as Hsegs.
  pose proof (fold_clean_again _ _ Hk) as Hfold.
  assert (Forall slash_free (reverse kept)) as Hfree.
  { eapply Forall_impl; [done|]. by intros ? [? ?]. }
  assert (path_segments (clean_text rooted kept) = reverse kept ∧
          is_rooted (clean_text rooted kept) = rooted ∧
          fold_left (clean_segment rooted)
            (strings_Split_slash (clean_text rooted kept)) [] = kept ∧
          fold_left (clean_segment rooted)
            (strings_Split_slash (clean_text rooted kept +:+ "/")) [] = kept)
    as (Hp & Hr & Hf & Hf').
  { unfold clean_text in *.
    destruct (reverse kept) as [|seg segs] eqn:Er.
    { destruct rooted; [|done].
      apply (f_equal reverse) in Er. rewrite reverse_involutive in Er.
      by subst kept. }
    assert (strings_Split_slash (strings_Join (seg :: segs) "/") = seg :: segs)
      as Hsplit by (by apply strings_Split_Join).
    assert (strings_Split_slash (strings_Join (seg :: segs) "/" +:+ "/")
            = (seg :: segs) ++ [""]) as Hsplit'.
    { rewrite <- (string_app_nil_r (_ +:+ "/")), string_app_assoc.
      by rewrite strings_Split_slash_app, Hsplit. }
    pose proof Hsegs as Hall.
    apply Forall_cons in Hsegs as [[Hseg Hsf] Hrest].
    destruct rooted.
    - change ("/" +:+ ?x) with (String "/" x) in *.
      change (String "/" ?x +:+ ?y) with (String "/" (x +:+ y)).
      rewrite !strings_Split_slash_rooted, Hsplit, Hsplit'.
      repeat split.
      + unfold path_segments. rewrite strings_Split_slash_rooted, Hsplit.
        rewrite filter_cons_False by naive_solver.
        by apply filter_nonempty_segments.
      + change (fold_left ?f ("" :: ?l) []) with (fold_left f l (f [] "")).
        by rewrite clean_segment_empty.
      + change (fold_left ?f ("" :: ?l) []) with (fold_left f l (f [] "")).
        by rewrite clean_segment_empty, fold_left_app, Hfold.
    - change ("" +:+ ?x) with x in *.
      rewrite Hsplit, Hsplit', fold_left_app, Hfold.
      repeat split; try done.
      + unfold path_segments. rewrite Hsplit.
        by apply filter_nonempty_segments.
      + rewrite strings_Join_rooted by done. by apply slash_free_not_rooted. }
  split; [done|]. split.
  - rewrite filepath_Clean_nonempty by done. cbn zeta.
    rewrite Hr, Hf. by rewrite decide_False.
  - rewrite filepath_Clean_nonempty by (intros ?%string_app_eq_nil; done).
    cbn zeta. rewrite is_rooted_app, Hr, Hf' by done. by rewrite decide_False.
Qed.

(** [filepath.Clean] never gives the empty path, and cleaning twice is
    cleaning once. *)
Lemma filepath_Clean_kept path :
  path ≠ "" →
  clean_kept (is_rooted path)
    (fold_left (clean_segment (is_rooted path)) (strings_Split_slash path) []).
Proof.
  intros _. apply fold_clean_kept;
    [apply strings_Split_slash_free|apply clean_kept_nil].
Qed.

Lemma filepath_Clean_not_empty path : filepath_Clean path ≠ "".
Proof. unfold filepath_Clean. by repeat case_decide. Qed.

Lemma filepath_Clean_stable path :
  filepath_Clean (filepath_Clean path) = filepath_Clean path ∧
  filepath_Clean (filepath_Clean path +:+ "/") = filepath_Clean path.
Proof.
  destruct (decide (path = "")) as [->|Hne]; [done|].
  rewrite (filepath_Clean_nonempty path) by done. cbn zeta.
  case_decide as Ht; [done|].
  destruct (clean_text_stable _ _ (filepath_Clean_kept path Hne) Ht)
    as (_ & ? & ?). done.
Qed.

(** Joining a cleaned directory with an empty name gives the directory. *)
Lemma filepath_Join_empty_name path :
  filepath_Join [filepath_Clean path; ""] = filepath_Clean path.
Proof.
  unfold filepath_Join. rewrite decide_False by apply filepath_Clean_not_empty.
  change (strings_Join [filepath_Clean path; ""] "/")
    with (filepath_Clean path +:+ "/" +:+ "").
  change ("/" +:+ "") with "/". apply filepath_Clean_stable.
Qed.

(** A cleaned path that ends in a name leads below the root. *)
Lemma path_segments_Clean_name path name :
  path ≠ "" → plain_seg name →
  path_segments (filepath_Clean (path +:+ "/" +:+ name)) ≠ [].
Proof.
  intros Hne Hname.
  assert (path +:+ "/" +:+ name ≠ "") as Hne'
    by (intros ?%string_app_eq_nil; done).
  rewrite filepath_Clean_nonempty by done. cbn zeta.
  case_decide as Ht; [done|].
  destruct (clean_text_stable _ _ (filepath_Clean_kept _ Hne') Ht) as (-> & _).
  rewrite strings_Split_slash_app.
  destruct Hname as (?&?&?&Hs). rewrite Hs, fold_left_app. cbn [fold_left].
  unfold clean_segment at 1. rewrite !decide_False by done.
  rewrite reverse_cons. by destruct (reverse _).
Qed.

(** * Removing a directory of the tree *)

Lemma find_entry_remove_entry name entries :
  find_entry name (remove_entry name entries) = None.
Proof.
  unfold remove_entry. induction entries as [|[n c] entries IH]; [done|].
  rewrite filter_cons. simpl. case_decide as Hn; [|done].
  simpl. by rewrite decide_False.
Qed.

Lemma find_entry_replace_entry name c c' entries :
  find_entry name entries = Some c →
  find_entry name (replace_entry name c' entries) = Some c'.
Proof.
  induction entries as [|[n c0] entries IH]; [done|]. simpl.
  case_decide as Hn; simpl.
  - intros _. by rewrite decide_True.
  - intros Hf. rewrite decide_False by done. by apply IH.
Qed.

(** [os.Remove] on a directory: an empty one goes, another one stays. *)
Lemma remove_at_directory segs : ∀ root entries mtime size,
  segs ≠ [] →
  resolve root segs = inr (Directory entries mtime size) →
  match entries with
  | [] => ∃ root', remove_at root segs = inr root' ∧
                   resolve root' segs = inl ENOENT
  | _ :: _ => remove_at root segs = inl ENOTEMPTY
  end.
Proof.
  induction segs as [|seg rest IH]; intros root entries mtime size Hne Hr;
    [done|].
  destruct root as [|es mt sz]; [done|]. simpl in Hr |- *.
  destruct (find_entry seg es) as [c|] eqn:Hf; [|done].
  destruct rest as [|seg' rest'].
  - simpl in Hr. injection Hr as ->. destruct entries as [|entry entries]; [|done].
    eexists. split; [done|]. simpl. by rewrite find_entry_remove_entry.
  - specialize (IH c entries mtime size ltac:(done) Hr).
    destruct entries as [|entry entries].
    + destruct IH as (c' & -> & Hc'). eexists. split; [done|].
      cbn [resolve]. by rewrite (find_entry_replace_entry _ _ _ _ Hf).
    + by rewrite IH.
Qed.

Section Configured.
Context {W : Type} {Sys : OS W}.

(** The directory [downloadsDir] returns is a cleaned path that ends in
    [Downloads]. *)
Lemma downloadsDir_Ok (HOME dir : string) (σ σ' : World W) :
  downloadsDir HOME σ = (Ok dir, σ') →
  ∃ homeDir, homeDir ≠ "" ∧
             dir = filepath_Clean (homeDir +:+ "/" +:+ "Downloads").
Proof.
  unfold downloadsDir. run_M. next_call; [|done]. intros [= <- _].
  case_decide; [by exists "/home/selenium"|].
  exists HOME. split; [done|]. unfold filepath_Join. by rewrite decide_False.
Qed.

End Configured.

Lemma plain_seg_Downloads : plain_seg "Downloads".
Proof. by repeat split. Qed.

(** C9. Let [dir] be the directory [downloadsDir] returned, and let it be
    a directory of the tree.  A DELETE request for the path [/] names the
    empty file name; [filepath.Join] of [dir] and that name is [dir]
    itself; [os.Stat] succeeds on it and [os.Remove] is called on it.  When
    the directory is empty it is removed and nothing is written (200, no
    body); otherwise the tree is unchanged and the reply is 500, plain
    text, with the cause "directory not empty". *)
Theorem delete_root_path_targets_directory (HOME dir : string)
    (σ0 σ1 : World Node) (pairs : list (string * string)) (root : Node)
    (entries : list (string * Node)) (mtime size : Z) :
  downloadsDir HOME σ0 = (Ok dir, σ1) →
  resolve root (path_segments dir) = inr (Directory entries mtime size) →
  let r := mkRequest "DELETE" "/" pairs in
  let out := deleteFileIfExists new_ResponseWriter r dir (mkWorld root []) in
  strings_TrimPrefix (URL_Path r) "/" = "" ∧
  filepath_Join [dir; strings_TrimPrefix (URL_Path r) "/"] = dir ∧
  (∃ removal, trace out.2 = [mkEvent SysRemove dir removal;
                             mkEvent SysStat dir None]) ∧
  (entries = [] →
     out.1 = new_ResponseWriter ∧ response_status out.1 = 200 ∧
     rw_Body out.1 = "" ∧
     resolve (os_state out.2) (path_segments dir) = inl ENOENT) ∧
  (entries ≠ [] →
     response_status out.1 = 500 ∧ plain_text out.1 ∧
     rw_Body out.1 =
       ("Failed to delete file " +:+ "" +:+ ": "
        +:+ PathError "remove" dir ENOTEMPTY) +:+ newline ∧
     os_state out.2 = root).
Proof.
  intros Hdir Hres r out.
  destruct (downloadsDir_Ok _ _ _ _ Hdir) as (homeDir & Hhome & ->).
  set (dir := filepath_Clean (homeDir +:+ "/" +:+ "Downloads")) in *.
  assert (filepath_Join [dir; ""] = dir) as Hjoin
    by apply filepath_Join_empty_name.
  assert (path_segments dir ≠ []) as Hsegs
    by (apply path_segments_Clean_name; [done|apply plain_seg_Downloads]).
  split; [done|]. split; [done|].
  subst out. rewrite deleteFileIfExists_run. cbn [URL_Path r].
  change (strings_TrimPrefix "/" "/") with "". rewrite Hjoin.
  unfold os_Stat, os_Remove, TreeFS, fs_Stat, fs_Remove. cbn [os_state trace].
  rewrite Hres.
  pose proof (remove_at_directory _ _ _ _ _ Hsegs Hres) as Hrm.
  destruct entries as [|entry entries].
  - destruct Hrm as (root' & -> & Hgone). simpl.
    split; [by eexists|]. split; [done|]. by intros [].
  - rewrite Hrm. cbn [fst snd os_state trace].
    split; [by eexists|]. split; [done|]. intros _.
    by destruct (http_Error_fresh new_ResponseWriter
      ("Failed to delete file " +:+ "" +:+ ": " +:+ PathError "remove" dir ENOTEMPTY)
      500 eq_refl) as (?&?&?).
Qed.

Lemma delete_root_path_targets_directory_witness :
  let dir := "/home/selenium/Downloads" in
  let σ0 := mkWorld bare_root [] in
  let σ1 := (downloadsDir (Sys := TreeFS) "" σ0).2 in
  let r := mkRequest "DELETE" "/" [] in
  let out := deleteFileIfExists (Sys := TreeFS) new_ResponseWriter r dir
               (mkWorld (os_state σ1) []) in
  downloadsDir (Sys := TreeFS) "" σ0 = (Ok dir, σ1) ∧
  resolve (os_state σ1) (path_segments dir) = inr (Directory [] 0 4096) ∧
  filepath_Join [dir; strings_TrimPrefix (URL_Path r) "/"] = dir ∧
  out.1 = new_ResponseWriter ∧ response_status out.1 = 200 ∧
  resolve (os_state out.2) (path_segments dir) = inl ENOENT.
Proof.
  assert (downloadsDir (Sys := TreeFS) "" (mkWorld bare_root [])
          = (Ok "/home/selenium/Downloads",
             (downloadsDir (Sys := TreeFS) "" (mkWorld bare_root [])).2))
    as Hd by (vm_compute; reflexivity).
  assert (resolve
            (os_state (downloadsDir (Sys := TreeFS) "" (mkWorld bare_root [])).2)
            (path_segments "/home/selenium/Downloads")
          = inr (Directory [] 0 4096)) as Hr by (vm_compute; reflexivity).
  split; [exact Hd|]. split; [exact Hr|].
  destruct (delete_root_path_targets_directory "" "/home/selenium/Downloads"
              _ _ [] _ [] 0 4096 Hd Hr) as (_ & Hj & _ & Hempty & _).
  destruct (Hempty eq_refl) as (Hw & Hs & _ & Hgone).
  exact (conj Hj (conj Hw (conj Hs Hgone))).
Defined.

(** The same request on a directory that is not empty. *)
Example delete_root_path_not_empty :
  let out := deleteFileIfExists (Sys := TreeFS) new_ResponseWriter
               (mkRequest "DELETE" "/" []) "/d" (mkWorld example_root []) in
  response_status out.1 = 500 ∧
  rw_Body out.1 =
    "Failed to delete file : remove /d: directory not empty" +:+ newline ∧
  os_state out.2 = example_root.
Proof. repeat split; vm_compute; reflexivity. Qed.

(** * More about the program *)

(** ** The router never panics *)

Section RouterMore.
Context {W : Type} {Lib : Library} {Sys : OS W}.

Lemma fmap_Returned_run (m : M W ResponseWriter) (σ : World W) :
  ((Returned <$> m) σ).1 = Returned (m σ).1.
Proof. unfold fmap, M_fmap. by destruct (m σ). Qed.

(** X1. Whatever the request and the state of the system, the handler
    returns: the index [hashSumQuery[0]] is never out of range. *)
Theorem mux_returns (dir : string) (w : ResponseWriter) (r : Request)
    (σ : World W) :
  ∃ w', (mux dir w r σ).1 = Returned w'.
Proof.
  unfold mux. case_decide; [rewrite fmap_Returned_run; by eexists|].
  rewrite !URL_Query_lookup.
  destruct (query_values jsonParam (URL_Pairs r));
    [rewrite fmap_Returned_run; by eexists|].
  destruct (query_values hashSum (URL_Pairs r)); simpl;
    rewrite fmap_Returned_run; by eexists.
Qed.

End RouterMore.

(** ** The calls of a listing, counted and confined *)

Section CallsMore.
Context {Lib : Library}.

Lemma entry_calls_confined path algo r calls e :
  entry_calls path algo r calls → e ∈ calls →
  ev_call e ∈ [SysLstat; SysOpen; SysRead; SysClose] ∧
  (ev_call e = SysLstat ∨ ev_call e = SysOpen → ev_path e = path).
Proof.
  inversion 1; subst; intros He;
    repeat (apply elem_of_cons in He as [->|He]);
    try (by apply elem_of_nil in He);
    (split; [simpl; in_list|by intros [|]]).
Qed.

Lemma loop_calls_confined dir algo entries r calls e :
  loop_calls dir algo entries r calls → e ∈ calls →
  ev_call e ∈ [SysLstat; SysOpen; SysRead; SysClose] ∧
  (ev_call e = SysLstat ∨ ev_call e = SysOpen →
     ∃ name, name ∈ entries ∧ ev_path e = dir +:+ "/" +:+ name).
Proof.
  induction 1 as [|entry rest m calls He
                   |entry rest rec calls rs calls' He Hl IH
                   |entry rest rec calls m calls' He Hl IH].
  - by intros ?%elem_of_nil.
  - intros Hin. destruct (entry_calls_confined _ _ _ _ _ He Hin) as [Hc Hp].
    split; [done|]. intros Hk. exists entry. split; [in_list|by apply Hp].
  - intros [Hin|Hin]%elem_of_app.
    + destruct (IH Hin) as [Hc Hp]. split; [done|]. intros Hk.
      destruct (Hp Hk) as (name & ? & ?). exists name.
      split; [by apply list_elem_of_further|done].
    + destruct (entry_calls_confined _ _ _ _ _ He Hin) as [Hc Hp].
      split; [done|]. intros Hk. exists entry. split; [in_list|by apply Hp].
  - intros [Hin|Hin]%elem_of_app.
    + destruct (IH Hin) as [Hc Hp]. split; [done|]. intros Hk.
      destruct (Hp Hk) as (name & ? & ?). exists name.
      split; [by apply list_elem_of_further|done].
    + destruct (entry_calls_confined _ _ _ _ _ He Hin) as [Hc Hp].
      split; [done|]. intros Hk. exists entry. split; [in_list|by apply Hp].
Qed.

Lemma entry_calls_closed path algo r calls :
  entry_calls path algo r calls →
  List.length (closed calls) = List.length (opened calls).
Proof. by inversion 1. Qed.

Lemma loop_calls_closed dir algo entries r calls :
  loop_calls dir algo entries r calls →
  List.length (closed calls) = List.length (opened calls).
Proof.
  unfold closed, opened.
  induction 1 as [|entry rest m calls He
                   |entry rest rec calls rs calls' He Hl IH
                   |entry rest rec calls m calls' He Hl IH]; [done|..].
  - by eapply entry_calls_closed.
  - rewrite !filter_app, !length_app, IH. f_equal. by eapply entry_calls_closed.
  - rewrite !filter_app, !length_app, IH. f_equal. by eapply entry_calls_closed.
Qed.

End CallsMore.

Section ListingMore.
Context {W : Type} {Lib : Library} {Sys : OS W}.

(** X2. A listing has two outcomes and no other.  It replies 200 with
    JSON, and then no call but a [Close] has failed; or it replies 500 in
    plain text, and then a call that reads the file system has failed.  A
    [Close] that fails changes nothing. *)
Theorem listing_reply_kinds (dir algo : string) (s : W) :
  let out := listFilesAsJson new_ResponseWriter dir algo (mkWorld s []) in
  (response_status out.1 = 200 ∧ json_reply out.1 ∧
   ∀ e, e ∈ trace out.2 → ev_call e ≠ SysClose → ev_error e = None) ∨
  (response_status out.1 = 500 ∧ plain_text out.1 ∧
   ∃ e, e ∈ trace out.2 ∧ is_Some (ev_error e) ∧
        ev_call e ∈ [SysReadDir; SysLstat; SysOpen; SysRead]).
Proof.
  intros out.
  pose proof (listFilesAsJson_run new_ResponseWriter dir algo (mkWorld s []))
    as Hrun.
  fold out in Hrun. simpl in Hrun.
  destruct (os_ReadDir dir s) as [[entries|e0] s1].
  - destruct Hrun as (calls & Ht & [(msg & Hl & Hw)|(recs & Hl & Hw)]).
    + right. rewrite Hw, Ht.
      destruct (http_Error_fresh new_ResponseWriter msg 500 eq_refl)
        as (Hst & _ & Hp).
      split; [done|]. split; [done|].
      destruct (loop_calls_Err _ _ _ _ _ Hl) as (e & err & Hin & He & Hc & _).
      exists e. split; [apply elem_of_app; by left|].
      split; [by eexists|by apply list_elem_of_further].
    + left. rewrite Hw, Ht. split; [done|]. split; [done|].
      intros e [Hin|Hin]%elem_of_app Hc.
      * by eapply loop_calls_Ok.
      * apply list_elem_of_singleton in Hin. by subst e.
  - right. rewrite Hrun. simpl.
    destruct (http_Error_fresh new_ResponseWriter e0 500 eq_refl)
      as (Hst & _ & Hp).
    split; [done|]. split; [done|].
    eexists. split; [apply list_elem_of_here|]. split; [by eexists|in_list].
Qed.

(** X3. A listing reads the directory once, before anything else, and
    after that it only stats, opens, reads and closes.  Every path it
    stats or opens is [dir/name] for a name [os.ReadDir] returned: the
    listing does not descend into subdirectories, and it removes and
    creates nothing. *)
Theorem listing_calls_confined (dir algo : string) (s : W) :
  let out := listFilesAsJson new_ResponseWriter dir algo (mkWorld s []) in
  ∃ calls,
    trace out.2 = calls ++ [mkEvent SysReadDir dir
                              (result_error (os_ReadDir dir s).1)] ∧
    ∀ e, e ∈ calls →
      ev_call e ∈ [SysLstat; SysOpen; SysRead; SysClose] ∧
      (ev_call e = SysLstat ∨ ev_call e = SysOpen →
         ∃ entries name, (os_ReadDir dir s).1 = Ok entries ∧
                         name ∈ entries ∧
                         ev_path e = dir +:+ "/" +:+ name).
Proof.
  intros out.
  pose proof (listFilesAsJson_run new_ResponseWriter dir algo (mkWorld s []))
    as Hrun.
  fold out in Hrun. simpl in Hrun.
  destruct (os_ReadDir dir s) as [[entries|e0] s1]; simpl.
  - destruct Hrun as (calls & Ht & Hr). exists calls. split; [done|].
    assert (∃ r, loop_calls dir algo entries r calls) as [r Hl]
      by (destruct Hr as [(?&?&?)|(?&?&?)]; eauto).
    intros e Hin. destruct (loop_calls_confined _ _ _ _ _ _ Hl Hin) as [Hc Hp].
    split; [done|]. intros Hk. destruct (Hp Hk) as (name & ? & ?).
    by exists entries, name.
  - exists []. rewrite Hrun. split; [done|]. by intros e ?%elem_of_nil.
Qed.

(** X4. In every listing, also one that fails, as many files are closed
    as were opened: no file is left open. *)
Theorem listing_closes_what_it_opens (dir algo : string) (s : W) :
  let out := listFilesAsJson new_ResponseWriter dir algo (mkWorld s []) in
  List.length (closed (trace out.2)) = List.length (opened (trace out.2)).
Proof.
  intros out.
  pose proof (listFilesAsJson_run new_ResponseWriter dir algo (mkWorld s []))
    as Hrun.
  fold out in Hrun. simpl in Hrun.
  destruct (os_ReadDir dir s) as [[entries|e0] s1].
  - destruct Hrun as (calls & Ht & Hr). rewrite Ht.
    assert (∃ r, loop_calls dir algo entries r calls) as [r Hl]
      by (destruct Hr as [(?&?&?)|(?&?&?)]; eauto).
    unfold closed, opened. rewrite !filter_app, !length_app.
    f_equal. by eapply loop_calls_closed.
  - by rewrite Hrun.
Qed.

(** The loop, one turn unfolded. *)
Lemma range_entries_cons (dir algo entry : string) (rest : list string)
    (files : slice FileInfo) (σ : World W) :
  range_entries dir algo (entry :: rest) files σ =
  match os_Lstat (dir +:+ "/" +:+ entry) (os_state σ) with
  | (Err e, s1) =>
      (Err e, mkWorld s1 (mkEvent SysLstat (dir +:+ "/" +:+ entry) (Some e)
                          :: trace σ))
  | (Ok info, s1) =>
      match getHash (dir +:+ "/" +:+ entry) algo
              (mkWorld s1 (mkEvent SysLstat (dir +:+ "/" +:+ entry) None
                           :: trace σ)) with
      | (Err e, σ') => (Err e, σ')
      | (Ok hashFile, σ') =>
          range_entries dir algo rest
            (append files (mkFileInfo (fi_Name info) (fi_Size info)
                             (fi_ModTime_Unix info) hashFile)) σ'
      end
  end.
Proof.
  cbn [range_entries]. run_M. next_call; [|done].
  by destruct (getHash _ _ _) as [[hashFile|e] σ'].
Qed.

Lemma getHash_NewHash (file algo algo' : string) (σ : World W) :
  NewHash algo = NewHash algo' → getHash file algo σ = getHash file algo' σ.
Proof. intros Heq. rewrite !getHash_run. by rewrite Heq. Qed.

Lemma range_entries_NewHash (dir algo algo' : string) (entries : list string) :
  NewHash algo = NewHash algo' →
  ∀ files σ, range_entries dir algo entries files σ
             = range_entries dir algo' entries files σ.
Proof.
  intros Heq. induction entries as [|entry rest IH]; intros files σ; [done|].
  rewrite !range_entries_cons.
  destruct (os_Lstat _ _) as [[info|e] s1]; [|done].
  rewrite (getHash_NewHash _ algo algo') by done.
  destruct (getHash _ _ _) as [[hashFile|e] σ']; [apply IH|done].
Qed.

(** X5. The algorithm name matters only by what [NewHash] makes of it: two
    names that select the same accumulator give the same reply and the same
    calls.  So the name is read without regard to case, and a name that is
    not supported gives the listing of the empty name. *)
Theorem listing_depends_on_NewHash (w : ResponseWriter)
    (dir algo algo' : string) (σ : World W) :
  NewHash algo = NewHash algo' →
  listFilesAsJson w dir algo σ = listFilesAsJson w dir algo' σ.
Proof.
  intros Heq. rewrite !listFilesAsJson_unfold.
  destruct (os_ReadDir dir (os_state σ)) as [[entries|e] s1]; [|done].
  by rewrite (range_entries_NewHash dir algo algo').
Qed.

End ListingMore.

(** ** Hashed listings *)

Section CallsHashed.
Context {Lib : Library}.

Lemma fmt_hex_not_empty b : b ≠ "" → fmt_hex b ≠ "".
Proof. by destruct b. Qed.

Lemma Hash_Sum_not_empty h :
  digests_not_empty Lib → Hash_Sum h ≠ "".
Proof.
  intros Hd. unfold Hash_Sum.
  destruct (Hd (hash_written h)) as (?&?&?). by destruct (hash_alg h).
Qed.

Lemma entry_calls_hashed path algo h rec calls :
  digests_not_empty Lib → NewHash algo = Some h →
  entry_calls path algo (Ok rec) calls → HashSum rec ≠ "".
Proof.
  intros Hd Hh. inversion 1; subst; [congruence|]. simpl.
  by apply fmt_hex_not_empty, Hash_Sum_not_empty.
Qed.

Lemma loop_calls_hashed dir algo h entries recs calls :
  digests_not_empty Lib → NewHash algo = Some h →
  loop_calls dir algo entries (Ok recs) calls →
  Forall (λ f, HashSum f ≠ "") recs.
Proof.
  intros Hd Hh Hl. remember (Ok recs) as r eqn:Er. revert recs Er.
  induction Hl as [|entry rest m calls He
                   |entry rest rec calls rs calls' He Hl IH
                   |entry rest rec calls m calls' He Hl IH];
    intros recs' Er; simplify_eq.
  - constructor.
  - constructor; [by eapply entry_calls_hashed|by apply IH].
Qed.

End CallsHashed.

Section ListingHashed.
Context {W : Type} {Lib : Library} {Sys : OS W}.

(** X6. With digests that are never empty and a supported algorithm,
    every element of the array a listing writes is an object with the four
    keys [name], [size], [lastModified] and [hashSum], in this order. *)
Theorem listing_with_hashSum (dir algo : string) (s : W) :
  let out := listFilesAsJson new_ResponseWriter dir algo (mkWorld s []) in
  digests_not_empty Lib →
  is_Some (NewHash algo) →
  response_status out.1 = 200 →
  ∃ items,
    rw_Body out.1 = json_render (JArray items) +:+ newline ∧
    Forall (λ item, json_keys item
                    = ["name"; "size"; "lastModified"; "hashSum"]) items.
Proof.
  intros out Hd [h Hh] Hs.
  destruct (listing_written dir algo s Hs)
    as (entries & recs & calls & _ & Hl & _ & Hw).
  exists (marshal_FileInfo <$> insertion_sort later_first recs).
  fold out in Hw. rewrite Hw. split; [done|].
  apply Forall_fmap. rewrite insertion_sort_Permutation.
  eapply Forall_impl; [by eapply loop_calls_hashed|].
  intros f Hf. simpl. unfold marshal_FileInfo. by rewrite decide_False.
Qed.

End ListingHashed.

(** ** The listing of a tree, in full *)

Section TreeRecords.
Context {Lib : Library}.

(** The loop gathers the records of the entries, in their order: it goes
    through when every entry gives one. *)
Lemma tree_loop_gathers (root : Node) (dir algo : string) :
  ∀ entries files tr,
    Forall (λ name, is_Some (tree_entry_record root dir algo name)) entries →
    (range_entries dir algo entries (Slice files) (mkWorld root tr)).1
    = Ok (Slice (files ++ omap (tree_entry_record root dir algo) entries)).
Proof.
  induction entries as [|entry rest IH]; intros files tr Hall.
  { simpl. by rewrite app_nil_r. }
  apply Forall_cons in Hall as [[rec Hrec] Hrest].
  rewrite tree_range_entries_cons. cbn [omap list_omap]. fold (@omap list _).
  rewrite Hrec. unfold tree_entry_record, tree_hash in Hrec.
  destruct (resolve root (path_segments (dir +:+ "/" +:+ entry)))
    as [e|[content mt [|]|es mt sz]]; try done;
    destruct (NewHash algo) as [h|]; try done;
    simpl in Hrec; injection Hrec as <-;
    rewrite IH by done; by rewrite <- app_assoc.
Qed.

(** It stops when one of them gives none. *)
Lemma tree_loop_stops (root : Node) (dir algo name : string) :
  tree_entry_record root dir algo name = None →
  ∀ entries files tr, name ∈ entries →
    ∃ msg, (range_entries dir algo entries (Slice files) (mkWorld root tr)).1
           = Err msg.
Proof.
  intros Hnone. induction entries as [|entry rest IH];
    intros files tr Hin; [by apply elem_of_nil in Hin|].
  rewrite tree_range_entries_cons.
  destruct (decide (entry = name)) as [->|Hne].
  - unfold tree_entry_record, tree_hash in Hnone.
    destruct (resolve root (path_segments (dir +:+ "/" +:+ name)))
      as [e|[content mt [|]|es mt sz]]; try (by eexists);
      destruct (NewHash algo) as [h|]; try done; by eexists.
  - apply elem_of_cons in Hin as [?|Hin]; [done|].
    destruct (resolve root (path_segments (dir +:+ "/" +:+ entry)))
      as [e|[content mt [|]|es mt sz]]; try (by eexists);
      destruct (NewHash algo) as [h|]; try (by eexists); by apply IH.
Qed.

Lemma find_entry_NoDup name n entries :
  NoDup entries.*1 → (name, n) ∈ entries → find_entry name entries = Some n.
Proof.
  induction entries as [|[n0 c0] entries IH]; intros Hnd Hin;
    [by apply elem_of_nil in Hin|].
  simpl in *. apply NoDup_cons in Hnd as [Hnot Hnd].
  apply elem_of_cons in Hin as [[= -> ->]|Hin].
  - by rewrite decide_True.
  - rewrite decide_False; [by apply IH|].
    intros ->. apply Hnot. apply list_elem_of_fmap. by exists (name, n).
Qed.

Lemma omap_fmap_fst {A} (f : string → option A) (g : string * Node → A)
    (entries : list (string * Node)) :
  (∀ nc, nc ∈ entries → f nc.1 = Some (g nc)) →
  omap f entries.*1 = g <$> entries.
Proof.
  induction entries as [|nc entries IH]; intros Hf; [done|].
  cbn [fmap list_fmap omap list_omap]. fold (@omap list _).
  rewrite (Hf nc) by apply list_elem_of_here.
  f_equal. apply IH. intros nc' ?. apply Hf. by apply list_elem_of_further.
Qed.

(** The record of an entry of a directory of the tree. *)
Lemma tree_entry_record_entry root dir algo entries mtime size name n :
  resolve root (path_segments dir) = inr (Directory entries mtime size) →
  NoDup entries.*1 → (name, n) ∈ entries → is_name name →
  tree_entry_record root dir algo name =
  (λ hash, mkFileInfo name (node_size n) (node_mtime n) hash)
    <$> tree_hash algo n.
Proof.
  intros Hd Hnd Hin Hn. unfold tree_entry_record.
  rewrite (resolve_entry _ _ _ _ _ _ Hn Hd), (find_entry_NoDup _ n) by done.
  unfold node_record, stat_of.
  destruct n; cbn [fi_Name fi_Size fi_ModTime_Unix node_size node_mtime];
    rewrite base_name_entry by done; by destruct (tree_hash algo _).
Qed.

(** X7. The listing of a directory of the tree whose entries have proper
    and distinct names.  When every entry can be given a hash field (with
    no algorithm: every entry but a file that cannot be opened; with an
    algorithm: every readable regular file) the reply is 200 and the
    records are, in some order, one for each entry, with its name, its
    size, its modification time and that hash field: the hexadecimal
    digest of the file's content when an algorithm is selected. *)
Theorem tree_listing_records (dir algo : string) (root : Node)
    (entries : list (string * Node)) (mtime size : Z) :
  resolve root (path_segments dir) = inr (Directory entries mtime size) →
  NoDup entries.*1 →
  Forall (λ nc, is_name nc.1 ∧ is_Some (tree_hash algo nc.2)) entries →
  let out := listFilesAsJson new_ResponseWriter dir algo (mkWorld root []) in
  response_status out.1 = 200 ∧
  ∃ files,
    rw_Body out.1 =
      json_render (JArray (marshal_FileInfo <$> files)) +:+ newline ∧
    files ≡ₚ (λ nc, mkFileInfo nc.1 (node_size nc.2) (node_mtime nc.2)
                      (default "" (tree_hash algo nc.2))) <$> entries.
Proof.
  intros Hd Hnd Hall out.
  assert (∀ nc, nc ∈ entries →
            tree_entry_record root dir algo nc.1 =
            Some (mkFileInfo nc.1 (node_size nc.2) (node_mtime nc.2)
                    (default "" (tree_hash algo nc.2)))) as Hrec.
  { intros [name n] Hin. simpl.
    rewrite Forall_forall in Hall. destruct (Hall _ Hin) as [Hn [hash Hh]].
    rewrite (tree_entry_record_entry _ _ _ _ _ _ _ _ Hd Hnd Hin Hn).
    simpl in Hh. by rewrite Hh. }
  subst out. rewrite listFilesAsJson_unfold. cbn [os_state trace].
  unfold os_ReadDir, TreeFS, fs_ReadDir. rewrite Hd.
  pose proof (tree_loop_gathers root dir algo
                (merge_sort String.le entries.*1) []
                [mkEvent SysReadDir dir None]) as Hloop.
  destruct (range_entries _ _ _ _ _) as [r σ']. simpl in Hloop.
  rewrite Hloop.
  2:{ rewrite merge_sort_Permutation. apply Forall_fmap.
      apply Forall_forall. intros nc Hin. simpl. rewrite (Hrec _ Hin).
      by eexists. }
  split; [done|]. eexists. split; [done|].
  rewrite insertion_sort_Permutation, merge_sort_Permutation.
  by rewrite (omap_fmap_fst _ _ _ Hrec).
Qed.

(** X8. And when one entry cannot be given a hash field (a file that
    cannot be opened; a directory, when an algorithm is selected) the whole
    listing is refused with 500 in plain text. *)
Theorem tree_listing_refused (dir algo name : string) (root : Node)
    (entries : list (string * Node)) (mtime size : Z) (n : Node) :
  resolve root (path_segments dir) = inr (Directory entries mtime size) →
  NoDup entries.*1 →
  (name, n) ∈ entries → is_name name →
  tree_hash algo n = None →
  let out := listFilesAsJson new_ResponseWriter dir algo (mkWorld root []) in
  response_status out.1 = 500 ∧ plain_text out.1.
Proof.
  intros Hd Hnd Hin Hn Hnone out.
  assert (tree_entry_record root dir algo name = None) as Hrec.
  { rewrite (tree_entry_record_entry _ _ _ _ _ _ _ _ Hd Hnd Hin Hn).
    by rewrite Hnone. }
  subst out. rewrite listFilesAsJson_unfold. cbn [os_state trace].
  unfold os_ReadDir, TreeFS, fs_ReadDir. rewrite Hd.
  destruct (tree_loop_stops root dir algo name Hrec
              (merge_sort String.le entries.*1) []
              [mkEvent SysReadDir dir None]) as [msg Hmsg].
  { rewrite merge_sort_Permutation. apply list_elem_of_fmap. by exists (name, n). }
  destruct (range_entries _ _ _ _ _) as [r σ']. simpl in Hmsg. subst r.
  by destruct (http_Error_fresh new_ResponseWriter msg 500 eq_refl) as (?&?&?).
Qed.

End TreeRecords.

(** ** Deleting, and deleting again *)

(** What [os.Remove] removed is no longer there. *)
Lemma remove_at_gone segs : ∀ root root',
  remove_at root segs = inr root' → ∃ e, resolve root' segs = inl e.
Proof.
  induction segs as [|seg rest IH]; intros root root' Hrm; [done|].
  destruct root as [|es mt sz]; [done|]. simpl in Hrm.
  destruct (find_entry seg es) as [c|] eqn:Hf; [|done].
  destruct rest as [|seg' rest'].
  - assert (root' = Directory (remove_entry seg es) mt sz) as ->.
    { destruct c as [|[|]]; by simplify_eq. }
    exists ENOENT. simpl. by rewrite find_entry_remove_entry.
  - destruct (remove_at c (seg' :: rest')) as [e|c'] eqn:Hc; [done|].
    injection Hrm as <-. destruct (IH _ _ Hc) as [e He]. exists e.
    cbn [resolve]. by rewrite (find_entry_replace_entry _ _ _ _ Hf).
Qed.

(** X9. On the tree, a delete request that succeeded cannot succeed
    again: the same request is then answered 404 "Unknown file N", and the
    tree is left as the first request left it. *)
Theorem delete_twice (dir : string) (r : Request) (root : Node)
    (tr : list Event) :
  let first := deleteFileIfExists new_ResponseWriter r dir (mkWorld root tr) in
  let second := deleteFileIfExists new_ResponseWriter r dir first.2 in
  response_status first.1 = 200 →
  response_status second.1 = 404 ∧
  rw_Body second.1
  = ("Unknown file " +:+ strings_TrimPrefix (URL_Path r) "/") +:+ newline ∧
  os_state second.2 = os_state first.2.
Proof.
  intros first second Hs.
  set (target := filepath_Join [dir; strings_TrimPrefix (URL_Path r) "/"]).
  assert (∃ root' tr', remove_at root (path_segments target) = inr root' ∧
                       first.2 = mkWorld root' tr') as (root' & tr' & Hrm & Hst).
  { subst first. rewrite deleteFileIfExists_run in Hs |- *. fold target in Hs |- *.
    unfold os_Stat, os_Remove, TreeFS, fs_Stat, fs_Remove in *.
    cbn [os_state trace] in *.
    destruct (resolve root (path_segments target)) as [e|n]; [done|].
    destruct (remove_at root (path_segments target)) as [e|root'];
      [done|by eexists _, _]. }
  destruct (remove_at_gone _ _ _ Hrm) as [e He].
  subst second. rewrite Hst, deleteFileIfExists_run. fold target.
  unfold os_Stat, TreeFS, fs_Stat. cbn [os_state trace]. by rewrite He.
Qed.

(** ** The path of an entry *)

Lemma strings_Join_not_empty seg segs : seg ≠ "" → strings_Join (seg :: segs) "/" ≠ "".
Proof.
  intros Hne. destruct segs as [|seg' segs]; [done|].
  rewrite strings_Join_cons. by intros ?%string_app_eq_nil.
Qed.

Lemma strings_Join_snoc segs seg :
  segs ≠ [] →
  strings_Join (segs ++ [seg]) "/" = strings_Join segs "/" +:+ "/" +:+ seg.
Proof.
  induction segs as [|s segs IH]; intros Hne; [done|].
  destruct segs as [|s' segs]; [done|].
  change ((s :: s' :: segs) ++ [seg]) with (s :: (s' :: segs) ++ [seg]).
  cbn [app]. rewrite !strings_Join_cons.
  change (s' :: segs ++ [seg]) with ((s' :: segs) ++ [seg]).
  rewrite IH by done. by rewrite !string_app_assoc.
Qed.

Lemma clean_text_not_empty rooted kept :
  clean_kept rooted kept → kept ≠ [] → clean_text rooted kept ≠ "".
Proof.
  intros Hk Hne. pose proof (clean_kept_segments _ _ Hk) as Hsegs.
  unfold clean_text. destruct (reverse kept) as [|seg segs] eqn:Er.
  { apply (f_equal reverse) in Er. rewrite reverse_involutive in Er. done. }
  apply Forall_cons in Hsegs as [[Hseg _] _].
  pose proof (strings_Join_not_empty seg segs Hseg).
  destruct rooted; [done|]. by change ("" +:+ ?x) with x.
Qed.

(** Cleaning a cleaned directory and a name after it. *)
Lemma filepath_Clean_entry rooted kept name :
  clean_kept rooted kept → kept ≠ [] → plain_seg name →
  filepath_Clean (clean_text rooted kept +:+ "/" +:+ name)
  = clean_text rooted kept +:+ "/" +:+ name ∧
  path_segments (clean_text rooted kept +:+ "/" +:+ name)
  = path_segments (clean_text rooted kept) ++ [name].
Proof.
  intros Hk Hne Hname.
  pose proof (clean_text_not_empty _ _ Hk Hne) as Ht.
  assert (clean_kept rooted (name :: kept)) as Hk'.
  { destruct Hk as (tops & k & -> & Htops & Hr).
    exists (name :: tops), k. split; [done|]. split; [by constructor|done]. }
  assert (clean_text rooted (name :: kept)
          = clean_text rooted kept +:+ "/" +:+ name) as Htext.
  { unfold clean_text. rewrite reverse_cons, strings_Join_snoc.
    - by rewrite string_app_assoc.
    - intros Hr. apply (f_equal reverse) in Hr.
      rewrite reverse_involutive in Hr. done. }
  assert (clean_text rooted (name :: kept) ≠ "") as Ht'
    by (by apply clean_text_not_empty).
  destruct (clean_text_stable _ _ Hk' Ht') as (Hp' & Hc' & _).
  destruct (clean_text_stable _ _ Hk Ht) as (Hp & _ & _).
  rewrite <- Htext. split; [done|]. by rewrite Hp', Hp, reverse_cons.
Qed.

Section ConfiguredMore.
Context {W : Type} {Sys : OS W}.


End ConfiguredMore.

Lemma strings_TrimPrefix_slash name :
  strings_TrimPrefix ("/" +:+ name) "/" = name.
Proof.
  change ("/" +:+ name) with (String "/" name).
  unfold strings_TrimPrefix. cbn [strings_CutPrefix].
  rewrite decide_True by done. by destruct name.
Qed.

(** In a cleaned directory, the path of the entry [name]. *)
Lemma filepath_Join_entry (dir name : string) :
  cleaned_dir dir → plain_seg name →
  filepath_Join [dir; name] = dir +:+ "/" +:+ name ∧
  path_segments (dir +:+ "/" +:+ name) = path_segments dir ++ [name].
Proof.
  intros (rooted & kept & Hk & Hne & ->) Hname.
  pose proof (clean_text_not_empty _ _ Hk Hne) as Ht.
  destruct (filepath_Clean_entry _ _ _ Hk Hne Hname) as [Hce Hpe].
  split; [|done].
  unfold filepath_Join. rewrite decide_False by done.
  by change (strings_Join [clean_text rooted kept; name] "/")
    with (clean_text rooted kept +:+ "/" +:+ name).
Qed.

Section SamePath.
Context {W : Type} {Sys : OS W}.

(** X10. For a cleaned directory and a request path [/name] whose name is
    one plain segment, every call [deleteFileIfExists] makes is an
    [os.Stat] or an [os.Remove] of [dir/name], the very path
    [listFilesAsJson] joins, stats and hashes for the entry [name]: what a
    listing shows under a name is what a delete request for that name
    removes.  The directory [downloadsDir] returns is such a directory. *)
Theorem delete_path_is_listed_path (dir name method : string)
    (pairs : list (string * string)) (w : ResponseWriter) (σ : World W) :
  cleaned_dir dir → plain_seg name →
  filepath_Join [dir; name] = dir +:+ "/" +:+ name ∧
  path_segments (dir +:+ "/" +:+ name) = path_segments dir ++ [name] ∧
  ∃ calls,
    trace (deleteFileIfExists w (mkRequest method ("/" +:+ name) pairs)
             dir σ).2 = calls ++ trace σ ∧
    calls ≠ [] ∧
    ∀ ev, ev ∈ calls →
      ev_path ev = dir +:+ "/" +:+ name ∧
      (ev_call ev = SysStat ∨ ev_call ev = SysRemove).
Proof.
  intros Hdir Hname.
  destruct (filepath_Join_entry dir name Hdir Hname) as [Hj Hp].
  split; [done|]. split; [done|].
  rewrite deleteFileIfExists_run. cbn [URL_Path].
  rewrite strings_TrimPrefix_slash, Hj.
  destruct (os_Stat _ (os_state σ)) as [[st|e] s1]; cbn [snd trace].
  - destruct (os_Remove _ s1) as [[[]|cause] s2]; cbn [snd trace].
    + exists [mkEvent SysRemove (dir +:+ "/" +:+ name) None;
              mkEvent SysStat (dir +:+ "/" +:+ name) None].
      split; [done|]. split; [done|].
      intros ev [->|[->|[]%elem_of_nil]%elem_of_cons]%elem_of_cons;
        simpl; by eauto.
    + exists [mkEvent SysRemove (dir +:+ "/" +:+ name) (Some cause);
              mkEvent SysStat (dir +:+ "/" +:+ name) None].
      split; [done|]. split; [done|].
      intros ev [->|[->|[]%elem_of_nil]%elem_of_cons]%elem_of_cons;
        simpl; by eauto.
  - exists [mkEvent SysStat (dir +:+ "/" +:+ name) (Some e)].
    split; [done|]. split; [done|].
    intros ev [->|[]%elem_of_nil]%elem_of_cons; simpl; by eauto.
Qed.

End SamePath.

(** ** Deleting an entry, then reading the directory *)

(** Removing the entry [name] of the directory at [segs]. *)
Lemma remove_at_entry segs name : ∀ root root' entries mtime size,
  resolve root segs = inr (Directory entries mtime size) →
  remove_at root (segs ++ [name]) = inr root' →
  resolve root' segs = inr (Directory (remove_entry name entries) mtime size).
Proof.
  induction segs as [|seg rest IH]; intros root root' entries mtime size Hr Hrm.
  - simpl in Hr. injection Hr as ->. simpl in Hrm.
    destruct (find_entry name entries) as [[|[|]]|]; by simplify_eq.
  - destruct root as [|es mt sz]; [done|]. simpl in Hr.
    change ((seg :: rest) ++ [name]) with (seg :: (rest ++ [name])) in Hrm.
    cbn [remove_at] in Hrm.
    destruct (find_entry seg es) as [c|] eqn:Hf; [|done].
    destruct (rest ++ [name]) as [|s' l'] eqn:Hl; [by destruct rest|].
    destruct (remove_at c (s' :: l')) as [e|c'] eqn:Hc; [done|].
    injection Hrm as <-. cbn [resolve].
    rewrite (find_entry_replace_entry _ _ _ _ Hf). by eapply IH.
Qed.

Lemma remove_at_file segs name : ∀ root entries mtime size content mt rd,
  resolve root segs = inr (Directory entries mtime size) →
  find_entry name entries = Some (RegFile content mt rd) →
  ∃ root', remove_at root (segs ++ [name]) = inr root'.
Proof.
  induction segs as [|seg rest IH];
    intros root entries mtime size content mt rd Hr Hf.
  - simpl in Hr. injection Hr as ->. simpl. rewrite Hf. by eexists.
  - destruct root as [|es mt' sz]; [done|]. simpl in Hr.
    change ((seg :: rest) ++ [name]) with (seg :: (rest ++ [name])).
    cbn [remove_at]. destruct (find_entry seg es) as [c|] eqn:Hfs; [|done].
    destruct (IH c entries mtime size content mt rd Hr Hf) as [c' Hc'].
    destruct (rest ++ [name]) as [|s' l'] eqn:Hl; [by destruct rest|].
    rewrite Hc'. by eexists.
Qed.

Lemma remove_entry_names name (entries : list (string * Node)) other :
  other ∈ (remove_entry name entries).*1 ↔ other ≠ name ∧ other ∈ entries.*1.
Proof.
  unfold remove_entry. rewrite !list_elem_of_fmap. split.
  - intros ([n c] & -> & [Hne Hin]%list_elem_of_filter). simpl in *.
    split; [done|]. by exists (n, c).
  - intros [Hne ([n c] & -> & Hin)]. exists (n, c). split; [done|].
    by apply list_elem_of_filter.
Qed.

(** X11. In a cleaned directory of the tree, a delete request for the
    regular file [name] succeeds, whether the file can be read or not: the
    reply is 200 with no body.  Afterwards the directory holds every other
    entry, unchanged, and no entry [name]: [os.ReadDir] returns the other
    names. *)
Theorem delete_then_ReadDir (dir name : string) (pairs : list (string * string))
    (root : Node) (tr : list Event) (entries : list (string * Node))
    (mtime size : Z) (content : string) (mt : Z) (rd : bool) :
  cleaned_dir dir → plain_seg name →
  resolve root (path_segments dir) = inr (Directory entries mtime size) →
  find_entry name entries = Some (RegFile content mt rd) →
  let out := deleteFileIfExists new_ResponseWriter
               (mkRequest "DELETE" ("/" +:+ name) pairs) dir
               (mkWorld root tr) in
  out.1 = new_ResponseWriter ∧ response_status out.1 = 200 ∧
  resolve (os_state out.2) (path_segments dir)
  = inr (Directory (remove_entry name entries) mtime size) ∧
  ∃ names, (os_ReadDir dir (os_state out.2)).1 = Ok names ∧
           (name ∉ names) ∧
           ∀ other, other ≠ name → (other ∈ names ↔ other ∈ entries.*1).
Proof.
  intros Hdir Hname Hres Hf out.
  destruct (filepath_Join_entry dir name Hdir Hname) as [Hj Hp].
  assert (is_name name) as Hn by (destruct Hname as (?&?&?&?); by split).
  destruct (remove_at_file _ name _ _ _ _ _ _ _ Hres Hf) as [root' Hrm].
  pose proof (remove_at_entry _ name _ _ _ _ _ Hres Hrm) as Hres'.
  subst out. rewrite deleteFileIfExists_run. cbn [URL_Path].
  rewrite strings_TrimPrefix_slash, Hj.
  unfold os_Stat, os_Remove, TreeFS, fs_Stat, fs_Remove. cbn [os_state trace].
  rewrite Hp, resolve_app, Hres. cbn [resolve]. rewrite Hf, Hrm.
  cbn [fst snd os_state].
  split; [done|]. split; [done|]. split; [done|].
  unfold os_ReadDir, fs_ReadDir. rewrite Hres'. eexists. split; [done|].
  split.
  - rewrite merge_sort_Permutation, remove_entry_names. by intros [? _].
  - intros other Hne. rewrite merge_sort_Permutation, remove_entry_names.
    split; [by intros [_ ?]|by split].
Qed.

(** ** Starting *)

Lemma find_entry_app_new name c (entries : list (string * Node)) :
  find_entry name entries = None →
  find_entry name (entries ++ [(name, c)]) = Some c.
Proof.
  induction entries as [|[n c0] entries IH]; simpl.
  - intros _. by rewrite decide_True.
  - case_decide; [done|]. apply IH.
Qed.

Lemma replace_entry_same name c (entries : list (string * Node)) :
  find_entry name entries = Some c → replace_entry name c entries = entries.
Proof.
  induction entries as [|[n c0] entries IH]; [done|]. simpl.
  case_decide; [by intros [= ->]|]. intros Hf. by rewrite IH.
Qed.

(** After [os.MkdirAll] the path leads to a directory. *)
Lemma mkdir_all_resolve segs : ∀ root root',
  mkdir_all root segs = inr root' →
  ∃ entries mtime size, resolve root' segs = inr (Directory entries mtime size).
Proof.
  induction segs as [|seg rest IH]; intros root root' Hmk.
  - destruct root; [done|]. simpl in Hmk. injection Hmk as <-. by eexists _, _, _.
  - destruct root as [|es mt sz]; [done|]. simpl in Hmk.
    destruct (find_entry seg es) as [c|] eqn:Hf.
    + destruct (mkdir_all c rest) as [e|c'] eqn:Hc; [done|].
      injection Hmk as <-. cbn [resolve].
      rewrite (find_entry_replace_entry _ _ _ _ Hf). by eapply IH.
    + destruct (mkdir_all (Directory [] mt sz) rest) as [e|c'] eqn:Hc; [done|].
      injection Hmk as <-. cbn [resolve].
      rewrite (find_entry_app_new _ _ _ Hf). by eapply IH.
Qed.

(** On a path that leads to a directory [os.MkdirAll] changes nothing. *)
Lemma mkdir_all_existing segs : ∀ root entries mtime size,
  resolve root segs = inr (Directory entries mtime size) →
  mkdir_all root segs = inr root.
Proof.
  induction segs as [|seg rest IH]; intros root entries mtime size Hr.
  - simpl in Hr. by injection Hr as ->.
  - destruct root as [|es mt sz]; [done|]. simpl in Hr |- *.
    destruct (find_entry seg es) as [c|] eqn:Hf; [|done].
    rewrite (IH _ _ _ _ Hr). by rewrite (replace_entry_same _ _ _ Hf).
Qed.

Section Start.
Context {W : Type} {Sys : OS W}.



End Start.

(** X13. On the tree, once [main] serves a directory, the path leads to a
    directory; and when it led to one before, starting has changed
    nothing in the tree: what was downloaded earlier is still there. *)
Theorem main_keeps_directory (HOME addr dir : string) (root : Node)
    (tr : list Event) (σ' : World Node) :
  main HOME (mkWorld root tr) = (Serving addr dir, σ') →
  (∃ entries mtime size,
     resolve (os_state σ') (path_segments dir)
     = inr (Directory entries mtime size)) ∧
  (∀ entries mtime size,
     resolve root (path_segments dir) = inr (Directory entries mtime size) →
     os_state σ' = root).
Proof.
  unfold main, downloadsDir. run_M.
  set (dir0 := filepath_Join _).
  unfold os_MkdirAll, TreeFS, fs_MkdirAll.
  destruct (mkdir_all root (path_segments dir0)) as [e|root'] eqn:Hmk; [done|].
  intros [= _ <- <-]. simpl. split.
  - by eapply mkdir_all_resolve.
  - intros entries mtime size Hr.
    rewrite (mkdir_all_existing _ _ _ _ _ Hr) in Hmk. by injection Hmk.
Qed.

(** ** The properties above, on the example trees *)

Lemma cleaned_dir_d : cleaned_dir "/d".
Proof.
  exists true, ["d"]. split; [|done].
  exists ["d"], 0%nat. split; [done|]. split; [|done].
  apply Forall_singleton. by repeat split.
Qed.

Lemma plain_seg_a_txt : plain_seg "a.txt".
Proof. by repeat split. Qed.

Lemma ExampleLibrary_digests : digests_not_empty ExampleLibrary.
Proof. intros data. by repeat split. Qed.

Lemma listing_depends_on_NewHash_witness :
  NewHash "MD5" = NewHash "md5" ∧
  listFilesAsJson (Lib := ExampleLibrary) (Sys := TreeFS)
    new_ResponseWriter "/d" "MD5" (mkWorld files_root [])
  = listFilesAsJson (Lib := ExampleLibrary) (Sys := TreeFS)
      new_ResponseWriter "/d" "md5" (mkWorld files_root []).
Proof.
  split; [reflexivity|].
  exact (listing_depends_on_NewHash (Lib := ExampleLibrary) (Sys := TreeFS)
           new_ResponseWriter "/d" "MD5" "md5" (mkWorld files_root [])
           eq_refl).
Defined.

Lemma listing_with_hashSum_witness :
  let out := listFilesAsJson (Lib := ExampleLibrary) (Sys := TreeFS)
               new_ResponseWriter "/d" "sha256" (mkWorld files_root []) in
  digests_not_empty ExampleLibrary ∧
  is_Some (NewHash "sha256") ∧
  response_status out.1 = 200 ∧
  ∃ items,
    rw_Body out.1
    = json_render (Lib := ExampleLibrary) (JArray items) +:+ newline ∧
    Forall (λ item, json_keys item
                    = ["name"; "size"; "lastModified"; "hashSum"]) items.
Proof.
  assert (is_Some (NewHash "sha256")) as Hsome by (by eexists).
  split; [exact ExampleLibrary_digests|]. split; [exact Hsome|].
  split; [vm_compute; reflexivity|].
  refine (listing_with_hashSum (Lib := ExampleLibrary) (Sys := TreeFS)
            "/d" "sha256" files_root ExampleLibrary_digests Hsome _).
  vm_compute. reflexivity.
Defined.

Lemma tree_listing_records_witness :
  let entries := [("b.txt", RegFile "hello" 20 true);
                  ("a.txt", RegFile "xy" 30 true)] in
  let out := listFilesAsJson (Lib := ExampleLibrary) (Sys := TreeFS)
               new_ResponseWriter "/d" "MD5" (mkWorld files_root []) in
  resolve files_root (path_segments "/d") = inr (Directory entries 5 4096) ∧
  NoDup entries.*1 ∧
  Forall (λ nc, is_name nc.1 ∧
                is_Some (tree_hash (Lib := ExampleLibrary) "MD5" nc.2))
    entries ∧
  response_status out.1 = 200 ∧
  ∃ files,
    rw_Body out.1 =
      json_render (Lib := ExampleLibrary)
        (JArray (marshal_FileInfo <$> files)) +:+ newline ∧
    files ≡ₚ [mkFileInfo "b.txt" 5 20 (fmt_hex "md5:hello");
              mkFileInfo "a.txt" 2 30 (fmt_hex "md5:xy")].
Proof.
  intros entries out.
  assert (NoDup entries.*1) as Hnd.
  { apply NoDup_cons. split; [not_in_list|]. apply NoDup_singleton. }
  assert (Forall (λ nc, is_name nc.1 ∧
                        is_Some (tree_hash (Lib := ExampleLibrary) "MD5" nc.2))
            entries) as Hall.
  { repeat apply Forall_cons_2; [| |apply Forall_nil_2];
      (split; [by split|by eexists]). }
  split; [reflexivity|]. split; [exact Hnd|]. split; [exact Hall|].
  exact (tree_listing_records (Lib := ExampleLibrary) "/d" "MD5" files_root
           entries 5 4096 eq_refl Hnd Hall).
Defined.

Lemma tree_listing_refused_witness :
  let out := listFilesAsJson (Lib := ExampleLibrary) (Sys := TreeFS)
               new_ResponseWriter "/d" "" (mkWorld locked_root []) in
  resolve locked_root (path_segments "/d")
  = inr (Directory [("locked", RegFile "secret" 9 false)] 5 4096) ∧
  is_name "locked" ∧
  tree_hash (Lib := ExampleLibrary) "" (RegFile "secret" 9 false) = None ∧
  response_status out.1 = 500 ∧ plain_text out.1.
Proof.
  assert (is_name "locked") as Hn by (by split).
  split; [reflexivity|]. split; [exact Hn|]. split; [reflexivity|].
  refine (tree_listing_refused (Lib := ExampleLibrary) "/d" "" "locked"
            locked_root [("locked", RegFile "secret" 9 false)] 5 4096
            (RegFile "secret" 9 false) eq_refl _ _ Hn eq_refl).
  - apply NoDup_singleton.
  - apply list_elem_of_here.
Defined.

Lemma delete_twice_witness :
  let r := mkRequest "DELETE" "/a.txt" [] in
  let first := deleteFileIfExists (Sys := TreeFS) new_ResponseWriter r "/d"
                 (mkWorld example_root []) in
  let second := deleteFileIfExists (Sys := TreeFS) new_ResponseWriter r "/d"
                  first.2 in
  response_status first.1 = 200 ∧
  response_status second.1 = 404 ∧
  rw_Body second.1 = "Unknown file a.txt" +:+ newline ∧
  os_state second.2 = os_state first.2.
Proof.
  split; [vm_compute; reflexivity|].
  refine (delete_twice "/d" (mkRequest "DELETE" "/a.txt" []) example_root []
            _).
  vm_compute. reflexivity.
Defined.

Lemma delete_path_is_listed_path_witness :
  cleaned_dir "/d" ∧ plain_seg "a.txt" ∧
  filepath_Join ["/d"; "a.txt"] = "/d/a.txt" ∧
  path_segments "/d/a.txt" = ["d"; "a.txt"] ∧
  ∃ calls,
    trace (deleteFileIfExists (Sys := TreeFS) new_ResponseWriter
             (mkRequest "DELETE" "/a.txt" []) "/d"
             (mkWorld example_root [])).2 = calls ++ [] ∧
    calls ≠ [] ∧
    ∀ ev, ev ∈ calls →
      ev_path ev = "/d/a.txt" ∧
      (ev_call ev = SysStat ∨ ev_call ev = SysRemove).
Proof.
  split; [exact cleaned_dir_d|]. split; [exact plain_seg_a_txt|].
  exact (delete_path_is_listed_path (Sys := TreeFS) "/d" "a.txt" "DELETE" []
           new_ResponseWriter (mkWorld example_root [])
           cleaned_dir_d plain_seg_a_txt).
Defined.

Lemma delete_then_ReadDir_witness :
  let entries := [("b.txt", RegFile "hello" 20 true);
                  ("a.txt", RegFile "xy" 30 true);
                  ("sub", Directory [("inner", RegFile "" 7 true)] 25 4096)] in
  let out := deleteFileIfExists (Sys := TreeFS) new_ResponseWriter
               (mkRequest "DELETE" "/a.txt" []) "/d"
               (mkWorld example_root []) in
  cleaned_dir "/d" ∧ plain_seg "a.txt" ∧
  resolve example_root (path_segments "/d") = inr (Directory entries 5 4096) ∧
  find_entry "a.txt" entries = Some (RegFile "xy" 30 true) ∧
  out.1 = new_ResponseWriter ∧ response_status out.1 = 200 ∧
  resolve (os_state out.2) (path_segments "/d")
  = inr (Directory (remove_entry "a.txt" entries) 5 4096) ∧
  ∃ names, (os_ReadDir (OS := TreeFS) "/d" (os_state out.2)).1 = Ok names ∧
           ("a.txt" ∉ names) ∧
           ∀ other, other ≠ "a.txt" →
                    (other ∈ names ↔ other ∈ entries.*1).
Proof.
  intros entries out.
  split; [exact cleaned_dir_d|]. split; [exact plain_seg_a_txt|].
  split; [reflexivity|]. split; [reflexivity|].
  exact (delete_then_ReadDir "/d" "a.txt" [] example_root [] entries 5 4096
           "xy" 30 true cleaned_dir_d plain_seg_a_txt eq_refl eq_refl).
Defined.

Lemma main_keeps_directory_witness :
  let σ1 := (main (Sys := TreeFS) "" (mkWorld bare_root [])).2 in
  let σ2 := (main (Sys := TreeFS) "" (mkWorld (os_state σ1) [])).2 in
  main (Sys := TreeFS) "" (mkWorld (os_state σ1) [])
  = (Serving ":8080" "/home/selenium/Downloads", σ2) ∧
  resolve (os_state σ1) (path_segments "/home/selenium/Downloads")
  = inr (Directory [] 0 4096) ∧
  (∃ entries mtime size,
     resolve (os_state σ2) (path_segments "/home/selenium/Downloads")
     = inr (Directory entries mtime size)) ∧
  os_state σ2 = os_state σ1.
Proof.
  intros σ1 σ2.
  assert (main (Sys := TreeFS) "" (mkWorld (os_state σ1) [])
          = (Serving ":8080" "/home/selenium/Downloads", σ2)) as Hrun
    by (vm_compute; reflexivity).
  assert (resolve (os_state σ1) (path_segments "/home/selenium/Downloads")
          = inr (Directory [] 0 4096)) as Hres by (vm_compute; reflexivity).
  split; [exact Hrun|]. split; [exact Hres|].
  destruct (main_keeps_directory "" ":8080" "/home/selenium/Downloads"
              (os_state σ1) [] σ2 Hrun) as [Hdir Hsame].
  exact (conj Hdir (Hsame _ _ _ Hres)).
Defined.
